(** * EMO assistant: memory retry discipline, context fast path, tool
      wrapper, agent error mapping, SSE transport and chat client.

    The development embeds the pieces of the repository that the
    specification talks about:

    - the ChromaDB retry loop and its degraded return values
      ([ARCHITECTURE.md], "ChromaDB Thread-Safe Memory System");
    - the greeting fast path in front of [query_memory]
      ([emo-nextjs/backend/PERFORMANCE_OPTIMIZATION.md]);
    - the [safe_tool] wrapper and the [except] mapping of
      [chat_with_agent] (tool error handling guide);
    - the SSE generator of [chat_stream] (technical overview);
    - [sendMessage] of [frontend/src/components/chat/ChatContainer.tsx].

    Further parts of the same files, and of the components they render
    or call, are embedded after these: the views of an email list
    ([EmailCard], [parseEmailList], [sanitizeText], the link renderer),
    the session list of the store, the two singletons of the backend,
    the quiz card and the document upload.

    Text is a list of code points (Python [str]) or UTF-16 code units
    (JavaScript strings); the literals of the sources lie in the Basic
    Multilingual Plane, where the two coincide, except the page emoji of
    the upload messages, which is written as its surrogate pair. *)

From Stdlib Require Import NArith ZArith Lia Bool List String Ascii.
From Stdlib Require Import DecimalString.
From stdpp Require Import gmap list sorting.
Import ListNotations.

(* ===================================================================== *)
(** ** Text: code points, UTF-8 literals, Python and JavaScript helpers   *)
(* ===================================================================== *)

Module Text.

Local Open Scope N_scope.

Definition text := list N.

(** Bytes of a string literal, as numbers. *)
Fixpoint bytes_of (s : string) : list N :=
  match s with
  | EmptyString => []
  | String a r => N_of_ascii a :: bytes_of r
  end.

(** Decoder for the UTF-8 byte sequences of the literals (one to four
    bytes per code point); a truncated sequence is dropped. *)
Fixpoint utf8_decode (bs : list N) : text :=
  match bs with
  | [] => []
  | b :: r =>
    if b <? 128 then b :: utf8_decode r
    else if b <? 224 then
      match r with
      | b1 :: r1 =>
          N.lor (N.shiftl (N.land b 31) 6) (N.land b1 63) :: utf8_decode r1
      | [] => []
      end
    else if b <? 240 then
      match r with
      | b1 :: b2 :: r2 =>
          N.lor (N.shiftl (N.land b 15) 12)
            (N.lor (N.shiftl (N.land b1 63) 6) (N.land b2 63))
            :: utf8_decode r2
      | _ => []
      end
    else
      match r with
      | b1 :: b2 :: b3 :: r3 =>
          N.lor (N.shiftl (N.land b 7) 18)
            (N.lor (N.shiftl (N.land b1 63) 12)
               (N.lor (N.shiftl (N.land b2 63) 6) (N.land b3 63)))
            :: utf8_decode r3
      | _ => []
      end
  end.

(** A source literal as text. *)
Definition lit (s : string) : text := utf8_decode (bytes_of s).

(** *** Python [str] operations *)

(** [str.lower()] on one code point: ASCII, Latin-1 and the Vietnamese
    letters (Ă Đ Ĩ Ũ Ơ Ư and U+1EA0..U+1EF9).  Every other code point
    is left as it is; Python lowers letters of further scripts too, none
    of which occurs in the literals of the sources. *)
Definition py_lower_cp (c : N) : N :=
  if (65 <=? c) && (c <=? 90) then c + 32
  else if (192 <=? c) && (c <=? 222) && negb (c =? 215) then c + 32
  else if (c =? 258) || (c =? 272) || (c =? 296) || (c =? 360)
          || (c =? 416) || (c =? 431) then c + 1
  else if (7840 <=? c) && (c <=? 7929) && N.even c then c + 1
  else c.

Definition py_lower (s : text) : text := map py_lower_cp s.

Definition cp_eqb (a b : N) : bool := a =? b.

(** [s.startswith(p)] with a custom comparison of code points. *)
Fixpoint starts_with_by (eqc : N -> N -> bool) (p s : text) : bool :=
  match p, s with
  | [], _ => true
  | _ :: _, [] => false
  | a :: p', b :: s' => eqc a b && starts_with_by eqc p' s'
  end.

Definition starts_with := starts_with_by cp_eqb.

(** [g in s]: [g] occurs in [s] as a contiguous substring. *)
Fixpoint py_in (g s : text) : bool :=
  starts_with g s ||
  match s with
  | [] => false
  | _ :: s' => py_in g s'
  end.

(** [s[:k]] *)
Definition py_prefix (k : nat) (s : text) : text := firstn k s.

(** *** JavaScript [String.prototype.trim] and the [/i] flag *)

(** WhiteSpace and LineTerminator code units of ECMAScript. *)
Definition js_is_space (c : N) : bool :=
  ((9 <=? c) && (c <=? 13)) || (c =? 32) || (c =? 160) || (c =? 5760)
  || ((8192 <=? c) && (c <=? 8202)) || (c =? 8232) || (c =? 8233)
  || (c =? 8239) || (c =? 8287) || (c =? 12288) || (c =? 65279).

Fixpoint js_trim_start (s : text) : text :=
  match s with
  | [] => []
  | c :: r => if js_is_space c then js_trim_start r else s
  end.

Definition js_trim_end (s : text) : text := rev (js_trim_start (rev s)).

Definition js_trim (s : text) : text := js_trim_end (js_trim_start s).

(** Canonicalize of a non-unicode, ignore-case RegExp, on the code units
    the email pattern can meet: a code unit is mapped to its upper case
    when that is a single code unit, and a non-ASCII unit is never
    mapped into ASCII.  ASCII letters, Latin-1 letters and the
    Vietnamese letters are covered; other units are their own class. *)
Definition js_canonicalize (c : N) : N :=
  if (97 <=? c) && (c <=? 122) then c - 32
  else if (224 <=? c) && (c <=? 254) && negb (c =? 247) then c - 32
  else if (c =? 259) || (c =? 273) || (c =? 297) || (c =? 361)
          || (c =? 417) || (c =? 432) then c - 1
  else if (7841 <=? c) && (c <=? 7929) && N.odd c then c - 1
  else c.

Definition ci_eqb (a b : N) : bool :=
  js_canonicalize a =? js_canonicalize b.

(** Truthiness of a JavaScript string. *)
Definition truthy (s : text) : bool :=
  match s with [] => false | _ => true end.

End Text.

Export Text.

(* ===================================================================== *)
(** ** Memory store: lock, bounded retry, degraded results               *)
(* ===================================================================== *)

Module MemoryStore.

(** What one call into ChromaDB does: it returns, or it raises an
    exception carrying a message. *)
Inductive outcome (A : Type) : Type :=
| Ok (a : A)
| Raise (e : text).
Arguments Ok {A} a.
Arguments Raise {A} e.

Definition raises {A} (o : outcome A) : bool :=
  match o with Ok _ => false | Raise _ => true end.

(** Observable steps of one store operation.  Delays are in
    milliseconds ([RETRY_DELAY = 0.5] seconds is 500). *)
Inductive event : Type :=
| LockAcquire
| EngineCall (attempt : nat)
| LockRelease
| Sleep (ms : nat).

(** State of the loop once it is left. *)
Inductive loop_exit (A : Type) : Type :=
| Succeeded (a : A)
| Exhausted (last : option text).
Arguments Succeeded {A} a.
Arguments Exhausted {A} last.

Definition MAX_RETRIES : nat := 3.
Definition RETRY_DELAY : nat := 500.

Section RetryLoop.
Context {A : Type}.
Variable max_retries : nat.
Variable retry_delay : nat.
(** [engine i] is the engine's answer to the call made by attempt [i]
    (counted from 0, as [range] does). *)
Variable engine : nat -> outcome A.

(** [with _chroma_lock: <operation>]: the lock is released on the way
    out, also when the operation raises. *)
Definition locked_call (attempt : nat) : outcome A * list event :=
  (engine attempt, [LockAcquire; EngineCall attempt; LockRelease]).

(** [if attempt < MAX_RETRIES - 1: time.sleep(RETRY_DELAY * (attempt + 1))] *)
Definition backoff (attempt : nat) : list event :=
  if attempt <? max_retries - 1
  then [Sleep (retry_delay * (attempt + 1))]
  else [].

(** [for attempt in range(MAX_RETRIES)], entered at [attempt] with
    [fuel] iterations of the range left. *)
Fixpoint retry_from (fuel attempt : nat) (last : option text)
  : loop_exit A * list event :=
  match fuel with
  | O => (Exhausted last, [])
  | S fuel' =>
    match locked_call attempt with
    | (Ok a, ev) => (Succeeded a, ev)
    | (Raise e, ev) =>
      let '(r, rest) := retry_from fuel' (S attempt) (Some e) in
      (r, ev ++ backoff attempt ++ rest)
    end
  end.

Definition with_retry : loop_exit A * list event :=
  retry_from max_retries 0 None.

(** What the caller gets: the operation's own result, or the
    operation's fallback when the loop ran out of attempts. *)
Definition degrade (fallback : option text -> A) (r : loop_exit A) : A :=
  match r with
  | Succeeded a => a
  | Exhausted last => fallback last
  end.

Definition store_operation (fallback : option text -> A) : A * list event :=
  (degrade fallback (fst with_retry), snd with_retry).

End RetryLoop.

(** [save_to_memory()] returns descriptive error strings on failure; the
    wording is not part of the documented source and is a parameter. *)
Definition save_to_memory (describe : option text -> text)
    (max_retries retry_delay : nat) (engine : nat -> outcome text)
  : text * list event :=
  store_operation max_retries retry_delay engine describe.

(** [query_memory()] returns empty list if database is unavailable. *)
Definition query_memory {D : Type}
    (max_retries retry_delay : nat) (engine : nat -> outcome (list D))
  : list D * list event :=
  store_operation max_retries retry_delay engine (fun _ => []).

(** [get_memory_by_id()] returns None on failure. *)
Definition get_memory_by_id {D : Type}
    (max_retries retry_delay : nat) (engine : nat -> outcome (option D))
  : option D * list event :=
  store_operation max_retries retry_delay engine (fun _ => None).

(** *** Reading a trace *)

Fixpoint sleeps (tr : list event) : list nat :=
  match tr with
  | [] => []
  | Sleep d :: r => d :: sleeps r
  | _ :: r => sleeps r
  end.

Fixpoint engine_calls (tr : list event) : list nat :=
  match tr with
  | [] => []
  | EngineCall i :: r => i :: engine_calls r
  | _ :: r => engine_calls r
  end.

(** Every engine call sits between an acquire and a release of the lock,
    and the lock is never taken twice. *)
Fixpoint lock_disciplined (held : bool) (tr : list event) : bool :=
  match tr with
  | [] => negb held
  | LockAcquire :: r => negb held && lock_disciplined true r
  | LockRelease :: r => held && lock_disciplined false r
  | EngineCall _ :: r => held && lock_disciplined held r
  | Sleep _ :: r => negb held && lock_disciplined held r
  end.

(** [base_delay * 1, base_delay * 2, ..., base_delay * k] *)
Definition linear_backoff (retry_delay k : nat) : list nat :=
  map (fun n => retry_delay * n) (seq 1 k).

(** The first [n] attempts all raise. *)
Definition all_raise {A} (engine : nat -> outcome A) (n : nat) : Prop :=
  forall i, i < n -> raises (engine i) = true.

(** What the retry wrapper promises about one operation whose engine
    answers are [engine], whose fallback is [fallback] and whose returned
    pair is [res]:
    - a first success at attempt [k] (counted from 0) inside the limit is
      returned as it is, after the waits [retry_delay * 1, ...,
      retry_delay * k] and [k + 1] engine calls;
    - when every attempt raises, the fallback comes back after exactly
      [max_retries] engine calls and [max_retries - 1] waits;
    - every engine call is made with the lock held, and there are never
      more than [max_retries] of them. *)
Definition retry_contract {A} (max_retries retry_delay : nat)
    (engine : nat -> outcome A) (fallback : option text -> A)
    (res : A * list event) : Prop :=
  (forall k a, k < max_retries -> all_raise engine k -> engine k = Ok a ->
     fst res = a /\
     sleeps (snd res) = linear_backoff retry_delay k /\
     engine_calls (snd res) = seq 0 (k + 1)) /\
  (all_raise engine max_retries ->
     (exists last, fst res = fallback last) /\
     sleeps (snd res) = linear_backoff retry_delay (max_retries - 1) /\
     engine_calls (snd res) = seq 0 max_retries) /\
  lock_disciplined false (snd res) = true /\
  length (engine_calls (snd res)) <= max_retries.

(** A wording for the error string of [save_to_memory], for examples. *)
Definition describe_failure (last : option text) : text :=
  lit "Error: memory unavailable" ++ default [] last.

(** The engine of the scenario: locked on the first two calls, then the
    write goes through. *)
Definition locked_twice (i : nat) : outcome text :=
  if i <? 2 then Raise (lit "database is locked") else Ok (lit "doc_42").

End MemoryStore.

(* ===================================================================== *)
(** ** Tiered memory store (records, ids, supersession, ranked query)     *)
(* ===================================================================== *)

Module TieredStore.

Inductive tier : Type := SessionTier | PermanentTier | ProjectTier.

#[global] Instance tier_eq_dec : EqDecision tier.
Proof. solve_decision. Defined.

Record metadata : Type := {
  md_session : option text;
  md_external_key : option text;
  md_supersedes : option N;
  md_fields : list (text * text)
}.

Section Store.
(** The embedding model is an external collaborator: [embed] maps a text
    to its vector and [similarity] scores two vectors (larger is
    nearer). *)
Variable E : Type.
Variable embed : text -> E.
Variable similarity : E -> E -> Z.

Record MemoryRecord : Type := {
  rec_tier : tier;
  rec_id : N;
  rec_text : text;
  rec_embedding : E;
  rec_metadata : metadata;
  rec_created_at : nat
}.

Record store : Type := {
  records : gmap N MemoryRecord;
  clock : nat
}.

(** Modelled from the spec: [get(id) -> MemoryRecord | NotFound]; the
    store functions of the backend ([chroma_memory.py], [tools.py]) are
    not among the sources. *)
Definition get (s : store) (id : N) : option MemoryRecord :=
  records s !! id.

Definition fresh_id (s : store) : N := fresh (dom (records s)).

(** Modelled from the spec: writing embeds the text and stores one record
    under an id no record has yet. *)
Definition write (s : store) (t : tier) (txt : text) (md : metadata)
  : N * store :=
  let id := fresh_id s in
  let r := {| rec_tier := t; rec_id := id; rec_text := txt;
              rec_embedding := embed txt; rec_metadata := md;
              rec_created_at := clock s |} in
  (id, {| records := <[id := r]> (records s); clock := S (clock s) |}).

Definition has_key (k : text) (r : MemoryRecord) : bool :=
  bool_decide (md_external_key (rec_metadata r) = Some k).

Definition find_by_key (s : store) (k : text) : option N :=
  fst <$> List.find (fun kv => has_key k (snd kv)) (map_to_list (records s)).

(** Modelled from the spec: [put(tier, text, metadata) -> id] embeds the
    text, writes the record and returns its id; it is idempotent only if
    the caller supplies a stable external key in the metadata, otherwise
    each call creates a new record. *)
Definition put (s : store) (t : tier) (txt : text) (md : metadata)
  : N * store :=
  match md_external_key md ≫= find_by_key s with
  | Some id => (id, s)
  | None => write s t txt md
  end.

Definition link_to (old_id : N) (md : metadata) : metadata :=
  {| md_session := md_session md;
     md_external_key := md_external_key md;
     md_supersedes := Some old_id;
     md_fields := md_fields md |}.

(** Modelled from the spec: [supersede(old_id, new_text, metadata)]
    writes a new record linked to [old_id] and does not delete the old
    record.  The new record goes to the tier of the old one (to the
    permanent tier when [old_id] is unknown). *)
Definition supersede (s : store) (old_id : N) (new_text : text)
    (md : metadata) : N * store :=
  let t := default PermanentTier (rec_tier <$> get s old_id) in
  write s t new_text (link_to old_id md).

(** *** Ranked query *)

(** [ranks_before q a b]: [a] is at least as near to the query vector [q]
    as [b]; among equally near records the more recent comes first. *)
Definition ranks_before (q : E) (a b : MemoryRecord) : Prop :=
  (similarity q (rec_embedding b) < similarity q (rec_embedding a))%Z \/
  (similarity q (rec_embedding b) = similarity q (rec_embedding a) /\
   rec_created_at b <= rec_created_at a).

#[global] Instance ranks_before_dec q a b : Decision (ranks_before q a b).
Proof. unfold ranks_before. apply _. Defined.

Definition eligible (tiers : list tier) (session_id : option text)
    (r : MemoryRecord) : bool :=
  bool_decide (rec_tier r ∈ tiers) &&
  (if decide (rec_tier r = SessionTier)
   then bool_decide (md_session (rec_metadata r) = session_id)
   else true).

Definition all_records (s : store) : list MemoryRecord :=
  snd <$> map_to_list (records s).

(** Modelled from the spec: [query(tiers, text, session_id, limit)]
    embeds the query text and returns the nearest records, filtered to
    the session (for the session tier) and to the requested tiers,
    ordered by similarity descending, ties broken by recency
    descending. *)
Definition query (s : store) (tiers : list tier) (txt : text)
    (session_id : option text) (limit : nat) : list MemoryRecord :=
  take limit
    (merge_sort (ranks_before (embed txt))
       (List.filter (eligible tiers session_id) (all_records s))).

(** What the query leaves out because of the limit. *)
Definition query_rest (s : store) (tiers : list tier) (txt : text)
    (session_id : option text) (limit : nat) : list MemoryRecord :=
  drop limit
    (merge_sort (ranks_before (embed txt))
       (List.filter (eligible tiers session_id) (all_records s))).

(** Modelled from the spec: the recall of the context assembler asks for
    the permanent and project tiers (the body of [query_memory] is not
    among the sources). *)
Definition query_memory (s : store) (txt : text) (n_results : nat)
  : list MemoryRecord :=
  query s [PermanentTier; ProjectTier] txt None n_results.

End Store.

(** *** A small store for examples: vectors are lower-cased texts and
    two vectors are the nearer the longer the prefix they share. *)

Definition no_metadata : metadata :=
  {| md_session := None; md_external_key := None; md_supersedes := None;
     md_fields := [] |}.

Fixpoint shared_prefix (a b : text) : nat :=
  match a, b with
  | x :: a', y :: b' => if cp_eqb x y then S (shared_prefix a' b') else 0
  | _, _ => 0
  end.

Definition example_embed (t : text) : text := py_lower t.

Definition example_similarity (q e : text) : Z := Z.of_nat (shared_prefix q e).

Definition example_store : store text :=
  snd (write text example_embed {| records := ∅; clock := 0 |}
         PermanentTier (lit "name: Josh") no_metadata).

Arguments rec_tier {E} _.
Arguments rec_id {E} _.
Arguments rec_text {E} _.
Arguments rec_embedding {E} _.
Arguments rec_metadata {E} _.
Arguments rec_created_at {E} _.
Arguments records {E} _.
Arguments clock {E} _.
Arguments get {E} _ _.
Arguments fresh_id {E} _.
Arguments find_by_key {E} _ _.
Arguments all_records {E} _.
Arguments eligible {E} _ _ _.
Arguments ranks_before {E} _ _ _ _.

End TieredStore.

(* ===================================================================== *)
(** ** Context assembler: the greeting fast path                          *)
(* ===================================================================== *)

Module ContextAssembler.

(** [simple_greetings = ["chào", "hi", "hello", "hey", "ok"]] *)
Definition simple_greetings : list text :=
  [lit "chào"; lit "hi"; lit "hello"; lit "hey"; lit "ok"].

(** [any(g in user_message.lower() for g in simple_greetings)
     and len(user_message) < 20] *)
Definition is_simple (user_message : text) : bool :=
  existsb (fun g => py_in g (py_lower user_message)) simple_greetings
  && (length user_message <? 20).

(** The value the call site passes: [n_results=2]. *)
Definition N_RESULTS : nat := 2.

(** One access to the memory store. *)
Inductive store_access : Type :=
| QueryMemory (query : text) (n_results : nat).

Section Recall.
Context {D : Type}.
(** The store function the agent calls. *)
Variable query_memory : text -> nat -> list D.

(** [if not is_simple: memories = query_memory(user_message, n_results=2)];
    [memories0] is what the variable holds before. *)
Definition recall (memories0 : list D) (user_message : text)
  : list D * list store_access :=
  if is_simple user_message
  then (memories0, [])
  else (query_memory user_message N_RESULTS,
        [QueryMemory user_message N_RESULTS]).

End Recall.

End ContextAssembler.

(* ===================================================================== *)
(** ** Tool wrapper and agent-level error mapping                         *)
(* ===================================================================== *)

Module Agent.

Import MemoryStore.

(** Python values a tool receives or returns. *)
Inductive pyvalue : Type :=
| VNone
| VBool (b : bool)
| VInt (z : Z)
| VStr (s : text).

Definition decimal (z : Z) : text :=
  bytes_of (DecimalString.NilZero.string_of_int (Z.to_int z)).

(** [str(v)] *)
Definition py_str (v : pyvalue) : text :=
  match v with
  | VNone => lit "None"
  | VBool true => lit "True"
  | VBool false => lit "False"
  | VInt z => decimal z
  | VStr s => s
  end.

(** Truth value of [v] in a condition. *)
Definition py_truthy (v : pyvalue) : bool :=
  match v with
  | VNone => false
  | VBool b => b
  | VInt z => negb (z =? 0)%Z
  | VStr s => truthy s
  end.

(** Keyword arguments of a tool call. *)
Definition arguments : Type := list (text * pyvalue).

(** A tool body: it returns a value or raises. *)
Definition tool : Type := arguments -> outcome pyvalue.

Inductive tool_event : Type :=
| Invoked (args : arguments).

(** [safe_tool(func)]: the wrapper calls [func] on the arguments it is given, inside
    [try], turns the result into a string and an exception into the
    string ["❌ Error: " + str(e)[:100]].  The places for type validation
    and range checking are comments only. *)
Definition safe_tool (func : tool) (args : arguments)
  : text * list tool_event :=
  (match func args with
   | Ok result =>
       if py_truthy result then py_str result else lit "✅ Done"
   | Raise e => lit "❌ Error: " ++ py_prefix 100 e
   end,
   [Invoked args]).

(** *** Declared parameters, as the annotations of a tool give them *)

Inductive param_type : Type := TInt | TStr | TBool.

Definition has_type (t : param_type) (v : pyvalue) : bool :=
  match t, v with
  | TInt, VInt _ => true
  | TStr, VStr _ => true
  | TBool, VBool _ => true
  | _, _ => false
  end.

Definition schema : Type := list (text * param_type).

Fixpoint lookup_arg (name : text) (args : arguments) : option pyvalue :=
  match args with
  | [] => None
  | (k, v) :: r => if bool_decide (k = name) then Some v else lookup_arg name r
  end.

(** Every declared parameter is present with a value of its type. *)
Definition conforms (sch : schema) (args : arguments) : bool :=
  forallb (fun p => match lookup_arg (fst p) args with
                    | Some v => has_type (snd p) v
                    | None => false
                    end) sch.

(** [def get_email(index: int) -> str], the example tool of the guide,
    over a mailbox of three mails; indices start at 1. *)
Definition get_email_schema : schema := [(lit "index", TInt)].

Definition get_email : tool := fun args =>
  match lookup_arg (lit "index") args with
  | Some (VInt i) =>
      if ((1 <=? i) && (i <=? 3))%Z
      then Ok (VStr (lit "Email #" ++ decimal i))
      else Raise (lit "Email index out of range")
  | Some _ => Raise (lit "'<=' not supported between instances of 'int' and 'str'")
  | None => Raise (lit "get_email() missing 1 required positional argument: 'index'")
  end.

(** *** [chat_with_agent] *)

Record chat_result : Type := {
  response : text;
  error : option text
}.

(** The [except Exception as e] branch at the end of [chat_with_agent]. *)
Definition error_response (e : text) : text :=
  if py_in (lit "tool_use_failed") (py_lower e)
  then lit "❌ Có lỗi khi sử dụng công cụ..."
  else if py_in (lit "rate_limit") (py_lower e)
  then lit "⏳ API quá tải..."
  else lit "❌ Lỗi: " ++ py_prefix 150 e.

(** [chat_with_agent]: [init] is what [get_or_create_agent()] does,
    [memory] what [query_memory(user_message)] does and [invoke] what the
    agent run does (the response text it leaves in [result], or the
    exception it raises). *)
Definition chat_with_agent {M : Type} (init : outcome unit)
    (memory : outcome M) (invoke : outcome text) : chat_result :=
  match init with
  | Raise e =>
      {| response := lit "❌ Lỗi khởi tạo agent..."; error := Some e |}
  | Ok _ =>
      (* an exception of the memory query is swallowed: [except: pass] *)
      match invoke with
      | Ok r =>
          {| response := if truthy r then r
                         else lit "Xin lỗi, không tạo được câu trả lời.";
             error := None |}
      | Raise e => {| response := error_response e; error := None |}
      end
  end.

End Agent.

(* ===================================================================== *)
(** ** Agent loop with a bound on tool round-trips                        *)
(* ===================================================================== *)

Module AgentLoop.

Inductive loop_state : Type :=
| Assembling | Invoking | ToolPending | Executing | Answering | Done | Failed.

#[global] Instance loop_state_eq_dec : EqDecision loop_state.
Proof. solve_decision. Defined.

(** The cap of the Gemma agent: "Max iterations: 5 tool calls per
    message". *)
Definition MAX_ITERATIONS : nat := 5.

Section Loop.
(** A requested tool call and the result of executing it. *)
Variable tool_call : Type.
Variable tool_result : Type.

(** What the model backend answers to one invocation. *)
Inductive model_reply : Type :=
| FinalAnswer (payload : text)
| ToolCalls (first : tool_call) (more : list tool_call)
| BackendError (e : text).

(** The model backend sees the results of the tools executed so far. *)
Variable invoke : list tool_result -> model_reply.
Variable execute : tool_call -> tool_result.

Inductive turn_outcome : Type :=
| Answered (payload : text)
| TurnFailed (message : text).

Definition unable_to_complete (cap : nat) : text :=
  lit "unable to complete after " ++ Agent.decimal (Z.of_nat cap)
  ++ lit " tool calls".

(** The single user-facing message of a failed turn. *)
Variable user_facing_error : text.

(** Modelled from the spec: the Agent Loop of 4.4 ([gemma_agent.py] is
    not among the sources).  From [Invoking] the backend either answers,
    fails, or requests tool calls; requested calls are executed in the
    order requested and re-offered to the model, unless the cap of
    [cap] round-trips is used up, in which case the loop goes to
    [Answering] with the synthesized payload.  [left] counts the
    round-trips still allowed.  The result is the outcome of the turn,
    the states visited and the tool calls executed. *)
Fixpoint run_from (cap left : nat) (results : list tool_result)
  : turn_outcome * list loop_state * list tool_call :=
  match invoke results with
  | FinalAnswer payload => (Answered payload, [Answering; Done], [])
  | BackendError _ => (TurnFailed user_facing_error, [Failed], [])
  | ToolCalls c cs =>
    match left with
    | O => (Answered (unable_to_complete cap), [Answering; Done], [])
    | S left' =>
      let '(out, states, calls) :=
        run_from cap left' (results ++ map execute (c :: cs)) in
      (out, ToolPending :: Executing :: Invoking :: states,
       (c :: cs) ++ calls)
    end
  end.

Definition run_turn (cap : nat)
  : turn_outcome * list loop_state * list tool_call :=
  let '(out, states, calls) := run_from cap cap [] in
  (out, Assembling :: Invoking :: states, calls).

(** Tool round-trips of a turn: the visits of [Executing]. *)
Definition round_trips (states : list loop_state) : nat :=
  length (List.filter (fun st => bool_decide (st = Executing)) states).

Definition outcome_of (res : turn_outcome * list loop_state * list tool_call)
  : turn_outcome := fst (fst res).

Definition states_of (res : turn_outcome * list loop_state * list tool_call)
  : list loop_state := snd (fst res).

Definition calls_of (res : turn_outcome * list loop_state * list tool_call)
  : list tool_call := snd res.

(** The backend asks for a tool on every invocation. *)
Definition always_requests_tool : Prop :=
  forall results, exists c cs, invoke results = ToolCalls c cs.

(** The walk through the states ends in [Answering; Done] or in
    [Failed]. *)
Definition ends_turn (states : list loop_state) : Prop :=
  exists before, states = before ++ [Answering; Done] \/
                 states = before ++ [Failed].

End Loop.

Arguments round_trips : clear implicits.
Arguments outcome_of {tool_call} res.
Arguments states_of {tool_call} res.
Arguments calls_of {tool_call} res.
Arguments ends_turn : clear implicits.
Arguments FinalAnswer {tool_call} payload.
Arguments ToolCalls {tool_call} first more.
Arguments BackendError {tool_call} e.

(** The stub backend of the test: it requests a tool call every time. *)
Definition stub_invoke (results : list unit) : model_reply unit :=
  ToolCalls tt [].

End AgentLoop.

(* ===================================================================== *)
(** ** Streaming transport: the SSE generator of [chat_stream]            *)
(* ===================================================================== *)

Module Transport.

(** One JSON object of the stream.  A field that is absent (or empty) is
    the empty text; [c_tools_used] is [None] when the chunk has no such
    array. *)
Record chunk : Type := {
  c_type : text;
  c_session_id : text;
  c_error : text;
  c_content : text;
  c_name : text;
  c_full_response : text;
  c_tools_used : option (list text);
  c_thinking : text;
  c_debug_info : text
}.

Definition empty_chunk : chunk :=
  {| c_type := []; c_session_id := []; c_error := []; c_content := [];
     c_name := []; c_full_response := []; c_tools_used := None;
     c_thinking := []; c_debug_info := [] |}.

(** [{'type': 'session_id', 'session_id': new_session.id}] *)
Definition session_chunk (sid : text) : chunk :=
  {| c_type := lit "session_id"; c_session_id := sid; c_error := [];
     c_content := []; c_name := []; c_full_response := [];
     c_tools_used := None; c_thinking := []; c_debug_info := [] |}.

Definition text_chunk (content : text) : chunk :=
  {| c_type := lit "text"; c_session_id := []; c_error := [];
     c_content := content; c_name := []; c_full_response := [];
     c_tools_used := None; c_thinking := []; c_debug_info := [] |}.

Definition tool_chunk (name : text) : chunk :=
  {| c_type := lit "tool"; c_session_id := []; c_error := [];
     c_content := []; c_name := name; c_full_response := [];
     c_tools_used := None; c_thinking := []; c_debug_info := [] |}.

Definition error_chunk (message : text) : chunk :=
  {| c_type := []; c_session_id := []; c_error := message;
     c_content := []; c_name := []; c_full_response := [];
     c_tools_used := None; c_thinking := []; c_debug_info := [] |}.

(** What goes over the wire: [data: <json>] or [data: [DONE]]. *)
Inductive frame : Type :=
| Data (c : chunk)
| DONE.

(** What [stream_chat_with_gemma] does when it is iterated: the chunks it
    yields and, when it does not finish, the exception it raises after
    them.  Its body is not among the sources. *)
Record agent_stream : Type := {
  chunks : list chunk;
  raised : option text
}.

(** [not session_id] for an optional string. *)
Definition no_session (session_id : option text) : bool :=
  match session_id with
  | None => true
  | Some s => negb (truthy s)
  end.

(** [generate()] of [chat_stream]: the frames it yields, and the
    exception that ends it when the agent stream raises.  There is no
    [try] around the loop, so after an exception nothing more is
    yielded. *)
Definition generate (session_id : option text) (new_session_id : text)
    (agent : agent_stream) : list frame * option text :=
  ((if no_session session_id then [Data (session_chunk new_session_id)]
    else [])
   ++ map Data (chunks agent)
   ++ (match raised agent with
       | None => [DONE]
       | Some _ => []
       end),
   raised agent).

Definition is_done (f : frame) : bool :=
  match f with DONE => true | Data _ => false end.

End Transport.

(* ===================================================================== *)
(** ** Chat client: [sendMessage] of [ChatContainer.tsx]                  *)
(* ===================================================================== *)

Module Client.

Import Transport.

Inductive role : Type := User | Assistant.

(** [tools], [thinking] and [debugInfo] are optional properties. *)
Record ChatMessage : Type := {
  id : text;
  msg_role : role;
  content : text;
  tools : option (list text);
  thinking : option text;
  debugInfo : option text
}.

Definition set_content (c : text) (m : ChatMessage) : ChatMessage :=
  {| id := id m; msg_role := msg_role m; content := c; tools := tools m;
     thinking := thinking m; debugInfo := debugInfo m |}.

(** *** Routing at the head of [sendMessage] *)

(** [/^(check email|đọc mail|xem mail|email|mail)/i] *)
Definition email_patterns : list text :=
  [lit "check email"; lit "đọc mail"; lit "xem mail"; lit "email";
   lit "mail"].

(** [/^(...)/i.test(messageText.trim())] *)
Definition isEmailQuery (messageText : text) : bool :=
  existsb (fun p => starts_with_by ci_eqb p (js_trim messageText))
    email_patterns.

(** What [fetch("http://localhost:8000/api/emails/list")] and
    [response.json()] do: the fetch rejects, or it gives a response with
    its [ok] flag and, when the body parses, the [content] of the JSON
    (a string; the empty text stands for a body without it). *)
Inductive emails_response : Type :=
| FetchRejected
| Response (ok : bool) (body : option text).

Inductive effect : Type :=
| AppendMessage (m : ChatMessage)
| SetInput (v : text)
| SetIsLoading (b : bool)
| FetchEmailsList
| OpenEventSource (message : text) (session_param : option text)
| ConsoleError.

Inductive send_outcome : Type :=
| Ignored
| DirectAnswer
| Streaming
| OuterError.

Section Send.
(** The [sessionId] prop, the [isLoading] state, and the two ids taken
    from [Date.now()]. *)
Variable sessionId : option text.
Variable isLoading0 : bool.
Variable user_id assistant_id : text.

Definition plain_message (i : text) (r : role) (c : text) : ChatMessage :=
  {| id := i; msg_role := r; content := c; tools := None;
     thinking := None; debugInfo := None |}.

(** [sessionId ? `&session_id=${sessionId}` : ''] *)
Definition sessionParam : option text :=
  match sessionId with
  | Some sid => if truthy sid then Some sid else None
  | None => None
  end.

(** [sendMessage] up to the point where the stream is opened.  The
    later revision adds the mode and debug parameters to the URL of the
    stream and is otherwise the same here. *)
Definition sendMessage (messageText : text) (emails : emails_response)
  : send_outcome * list effect :=
  if negb (truthy (js_trim messageText)) || isLoading0 then (Ignored, [])
  else
    let userMessage := plain_message user_id User (js_trim messageText) in
    let start := [AppendMessage userMessage; SetInput []; SetIsLoading true] in
    let open_stream := [OpenEventSource (content userMessage) sessionParam] in
    let outer_catch :=
      [ConsoleError;
       AppendMessage (plain_message assistant_id Assistant
                        (lit "Có lỗi xảy ra. Vui lòng thử lại."));
       SetIsLoading false] in
    if isEmailQuery messageText then
      match emails with
      | FetchRejected => (OuterError, start ++ FetchEmailsList :: outer_catch)
      | Response true (Some data_content) =>
          (DirectAnswer,
           start ++ [FetchEmailsList;
                     AppendMessage (plain_message assistant_id Assistant
                                      data_content);
                     SetIsLoading false])
      | Response true None =>
          (OuterError, start ++ FetchEmailsList :: outer_catch)
      | Response false _ => (Streaming, start ++ FetchEmailsList :: open_stream)
      end
    else (Streaming, start ++ open_stream).

End Send.

Definition opens_stream (e : effect) : bool :=
  match e with OpenEventSource _ _ => true | _ => false end.

(** *** The handlers of the event source *)

(** [event.data] of a message event: the sentinel, a JSON object, or
    something [JSON.parse] (or the property reads after it) throws on. *)
Inductive sse_data : Type :=
| DoneMarker
| Json (c : chunk)
| Unparsable.

Inductive sse_event : Type :=
| Message (data : sse_data)
| ConnectionError.

(** A frame of the server as the event the browser raises for it. *)
Definition deliver (f : frame) : sse_event :=
  match f with
  | Data c => Message (Json c)
  | DONE => Message DoneMarker
  end.

(** The two revisions of the component: the later one records the
    session id only when the component has no [sessionId] of its own and
    carries [debug_info]. *)
Inductive revision : Type := Rev1 | Rev2.

(** The variables the handlers close over, the [messages] state, and
    the calls of [onSessionCreated] made so far. *)
Record stream_state : Type := {
  closed : bool;
  isLoading : bool;
  accumulatedContent : text;
  accumulatedTools : list text;
  accumulatedThinking : text;
  accumulatedDebugInfo : text;
  messageCreated : bool;
  newSessionId : option text;
  messages : list ChatMessage;
  navigations : list text
}.

Section Handlers.
Variable rev : revision.
Variable sessionId : option text.
(** Whether the parent passed an [onSessionCreated] callback. *)
Variable onSessionCreated : bool.
Variable assistantMessageId : text.

Definition assistantMessage : ChatMessage :=
  {| id := assistantMessageId; msg_role := Assistant; content := [];
     tools := Some []; thinking := Some []; debugInfo := None |}.

Definition initial_state (msgs : list ChatMessage) : stream_state :=
  {| closed := false; isLoading := true; accumulatedContent := [];
     accumulatedTools := []; accumulatedThinking := [];
     accumulatedDebugInfo := []; messageCreated := false;
     newSessionId := None; messages := msgs; navigations := [] |}.

(** [prev.map((msg) => msg.id === assistantMessageId ? f(msg) : msg)] *)
Definition update_assistant (f : ChatMessage -> ChatMessage)
    (msgs : list ChatMessage) : list ChatMessage :=
  map (fun m => if bool_decide (id m = assistantMessageId) then f m else m)
    msgs.

Definition is_session_chunk (c : chunk) : bool :=
  bool_decide (c_type c = lit "session_id") && truthy (c_session_id c).

(** The [[DONE]] branch of [onmessage]. *)
Definition on_done (s : stream_state) : stream_state :=
  {| closed := true; isLoading := false;
     accumulatedContent := accumulatedContent s;
     accumulatedTools := accumulatedTools s;
     accumulatedThinking := accumulatedThinking s;
     accumulatedDebugInfo := accumulatedDebugInfo s;
     messageCreated := messageCreated s;
     newSessionId := newSessionId s;
     messages := messages s;
     navigations :=
       match newSessionId s with
       | Some sid =>
           if truthy sid && onSessionCreated
           then navigations s ++ [sid] else navigations s
       | None => navigations s
       end |}.

(** The [session_id] branch: the id is kept, nothing else happens. *)
Definition on_session (sid : text) (s : stream_state) : stream_state :=
  {| closed := closed s; isLoading := isLoading s;
     accumulatedContent := accumulatedContent s;
     accumulatedTools := accumulatedTools s;
     accumulatedThinking := accumulatedThinking s;
     accumulatedDebugInfo := accumulatedDebugInfo s;
     messageCreated := messageCreated s;
     newSessionId :=
       match rev with
       | Rev1 => Some sid
       | Rev2 => if no_session sessionId then Some sid else newSessionId s
       end;
     messages := messages s;
     navigations := navigations s |}.

(** Closing with a text shown to the user: the [chunk.error] branch. *)
Definition on_error_chunk (e : text) (s : stream_state) : stream_state :=
  let shown := lit "Lỗi: " ++ e in
  {| closed := true; isLoading := false;
     accumulatedContent := accumulatedContent s;
     accumulatedTools := accumulatedTools s;
     accumulatedThinking := accumulatedThinking s;
     accumulatedDebugInfo := accumulatedDebugInfo s;
     messageCreated := messageCreated s;
     newSessionId := newSessionId s;
     messages :=
       if negb (messageCreated s)
       then messages s ++ [set_content shown assistantMessage]
       else update_assistant (set_content shown) (messages s);
     navigations := navigations s |}.

(** The accumulation branch. *)
Definition on_content (c : chunk) (s : stream_state) : stream_state :=
  let content1 :=
    if bool_decide (c_type c = lit "text") && truthy (c_content c)
    then accumulatedContent s ++ c_content c else accumulatedContent s in
  let tools1 :=
    if bool_decide (c_type c = lit "tool") && truthy (c_name c)
    then accumulatedTools s ++ [c_name c] else accumulatedTools s in
  let content2 :=
    if bool_decide (c_type c = lit "done") && truthy (c_full_response c)
    then c_full_response c else content1 in
  let tools2 := default tools1 (c_tools_used c) in
  let thinking1 :=
    if truthy (c_thinking c) then c_thinking c else accumulatedThinking s in
  let debug1 :=
    match rev with
    | Rev1 => accumulatedDebugInfo s
    | Rev2 => if truthy (c_debug_info c) then c_debug_info c
              else accumulatedDebugInfo s
    end in
  let shown (m : ChatMessage) : ChatMessage :=
    {| id := id m; msg_role := msg_role m; content := content2;
       tools := Some tools2; thinking := Some thinking1;
       debugInfo := match rev with
                    | Rev1 => debugInfo m
                    | Rev2 => Some debug1
                    end |} in
  let create := negb (messageCreated s) && truthy content2 in
  {| closed := closed s; isLoading := isLoading s;
     accumulatedContent := content2;
     accumulatedTools := tools2;
     accumulatedThinking := thinking1;
     accumulatedDebugInfo := debug1;
     messageCreated := messageCreated s || create;
     newSessionId := newSessionId s;
     messages :=
       if create then messages s ++ [shown assistantMessage]
       else if messageCreated s then update_assistant shown (messages s)
       else messages s;
     navigations := navigations s |}.

(** [eventSource.onmessage] *)
Definition onmessage (d : sse_data) (s : stream_state) : stream_state :=
  match d with
  | DoneMarker => on_done s
  | Unparsable => s
  | Json c =>
      if is_session_chunk c then on_session (c_session_id c) s
      else if truthy (c_error c) then on_error_chunk (c_error c) s
      else on_content c s
  end.

(** [eventSource.onerror] *)
Definition onerror (s : stream_state) : stream_state :=
  let shown := lit "Không thể kết nối đến server. Vui lòng thử lại." in
  {| closed := true; isLoading := false;
     accumulatedContent := accumulatedContent s;
     accumulatedTools := accumulatedTools s;
     accumulatedThinking := accumulatedThinking s;
     accumulatedDebugInfo := accumulatedDebugInfo s;
     messageCreated := messageCreated s;
     newSessionId := newSessionId s;
     messages :=
       if negb (messageCreated s)
       then messages s ++ [set_content shown assistantMessage]
       else if negb (truthy (accumulatedContent s))
       then update_assistant (set_content shown) (messages s)
       else messages s;
     navigations := navigations s |}.

(** An event reaches its handler only while the source is open: after
    [eventSource.close()] the browser raises no further event. *)
Definition dispatch (s : stream_state) (ev : sse_event) : stream_state :=
  if closed s then s
  else match ev with
       | Message d => onmessage d s
       | ConnectionError => onerror s
       end.

Definition run (s : stream_state) (evs : list sse_event) : stream_state :=
  fold_left dispatch evs s.

(** The events that reach a handler, in order. *)
Fixpoint handled (s : stream_state) (evs : list sse_event)
  : list sse_event :=
  match evs with
  | [] => []
  | ev :: r =>
      if closed s then [] else ev :: handled (dispatch s ev) r
  end.

(** An event that makes the handler close the source. *)
Definition closes (ev : sse_event) : bool :=
  match ev with
  | ConnectionError => true
  | Message DoneMarker => true
  | Message Unparsable => false
  | Message (Json c) => negb (is_session_chunk c) && truthy (c_error c)
  end.

Definition is_done_event (ev : sse_event) : bool :=
  match ev with Message DoneMarker => true | _ => false end.

Definition is_error_event (ev : sse_event) : bool :=
  closes ev && negb (is_done_event ev).

End Handlers.

(** The id the client keeps is never an empty one. *)
Definition kept_id_truthy (s : stream_state) : Prop :=
  forall sid, newSessionId s = Some sid -> truthy sid = true.

(** No event of the list closes the source. *)
Definition open_only (evs : list sse_event) : bool :=
  forallb (fun ev => negb (closes ev)) evs.

(** The events the browser raises for the frames of the server. *)
Definition delivered (frames : list frame) : list sse_event :=
  map deliver frames.

(** *** Streams for examples *)

(** An agent stream that answers in two pieces. *)
Definition greeting_stream : agent_stream :=
  {| chunks := [text_chunk (lit "Xin "); text_chunk (lit "chào")];
     raised := None |}.

(** An agent stream that reports a failure of the model backend after a
    first piece of text. *)
Definition failing_stream : agent_stream :=
  {| chunks := [text_chunk (lit "Hel"); error_chunk (lit "model timeout")];
     raised := None |}.

(** An agent stream that raises after a first piece of text. *)
Definition raising_stream : agent_stream :=
  {| chunks := [text_chunk (lit "Hel")];
     raised := Some (lit "model timeout") |}.

End Client.


(* ===================================================================== *)
(** ** Notions used to state properties of the stream handlers            *)
(* ===================================================================== *)

Module StreamNotions.

Import Transport Client.

(** No message of the list carries the id of the assistant message of the
    running turn. *)
Definition no_id_clash (assistantMessageId : text)
    (msgs : list ChatMessage) : Prop :=
  Forall (fun m => id m <> assistantMessageId) msgs.

(** The messages of [s] are those of [msgs] followed by at most one
    message, which is the assistant message of the turn. *)
Definition stream_inv (assistantMessageId : text) (msgs : list ChatMessage)
    (s : stream_state) : Prop :=
  exists tail,
    messages s = msgs ++ tail /\
    Forall (fun m => id m = assistantMessageId /\ msg_role m = Assistant)
      tail /\
    length tail <= 1 /\
    (messageCreated s = true -> length tail = 1) /\
    (messageCreated s = false -> closed s = false -> tail = []).

(** The events of a stream of text chunks. *)
Definition text_events (cs : list text) : list sse_event :=
  map (fun c => Message (Json (text_chunk c))) cs.

(** The assistant message as it is shown after text [shown] has come in
    and no tool, thinking or debug data. *)
Definition streamed_message (rev : revision) (assistantMessageId : text)
    (shown : text) : ChatMessage :=
  {| id := assistantMessageId; msg_role := Assistant; content := shown;
     tools := Some []; thinking := Some [];
     debugInfo := match rev with Rev1 => None | Rev2 => Some [] end |}.

(** The state of the handlers after text [shown] has come in. *)
Definition streaming_state (rev : revision) (assistantMessageId : text)
    (msgs : list ChatMessage) (shown : text) : stream_state :=
  {| closed := false; isLoading := true; accumulatedContent := shown;
     accumulatedTools := []; accumulatedThinking := [];
     accumulatedDebugInfo := []; messageCreated := true;
     newSessionId := None;
     messages := msgs ++ [streamed_message rev assistantMessageId shown];
     navigations := [] |}.

End StreamNotions.

(* ===================================================================== *)
(** ** Email views: [EmailCard] and [EmailContent]                        *)
(* ===================================================================== *)

Module EmailViews.

Import Client.

Local Open Scope N_scope.

(** [text.replace(/c/g, rep)] for a single character [c] and a
    replacement without [$]. *)
Definition replace_char (c : N) (rep : text) (s : text) : text :=
  flat_map (fun x => if x =? c then rep else [x]) s.

(** [sanitizeText] of [EmailContent]: five replacements, the ampersand
    first. *)
Definition sanitizeText (t : text) : text :=
  replace_char 39 (lit "&#039;")
    (replace_char 34 (lit "&quot;")
       (replace_char 62 (lit "&gt;")
          (replace_char 60 (lit "&lt;")
             (replace_char 38 (lit "&amp;") t)))).

(** What one character becomes when a text is escaped in one pass. *)
Definition escape_char (x : N) : text :=
  if x =? 38 then lit "&amp;"
  else if x =? 60 then lit "&lt;"
  else if x =? 62 then lit "&gt;"
  else if x =? 34 then lit "&quot;"
  else if x =? 39 then lit "&#039;"
  else [x].

(** The characters [<], [>], the double and the single quote. *)
Definition is_markup_char (x : N) : bool :=
  (x =? 60) || (x =? 62) || (x =? 34) || (x =? 39).

(** *** [getAvatarColor] *)

Local Open Scope Z_scope.

(** ToInt32 of a number with an integer value. *)
Definition to_int32 (z : Z) : Z := (z + 2 ^ 31) mod 2 ^ 32 - 2 ^ 31.

(** [hash << 5] *)
Definition shl5 (hash : Z) : Z := to_int32 (to_int32 hash * 32).

(** [hash = sender.charCodeAt(i) + ((hash << 5) - hash)]; the sum and the
    difference are computed on numbers, without wrap-around. *)
Definition hash_step (hash : Z) (code_unit : N) : Z :=
  Z.of_N code_unit + (shl5 hash - hash).

Definition sender_hash (sender : text) : Z :=
  fold_left hash_step sender 0.

Definition COLORS : list text :=
  [lit "purple"; lit "blue"; lit "cyan"; lit "green"; lit "orange";
   lit "pink"].

(** [COLORS[Math.abs(hash) % COLORS.length]]; an index outside the array
    would give [undefined], here [None]. *)
Definition getAvatarColor (sender : text) : option text :=
  nth_error COLORS (Z.to_nat (Z.abs (sender_hash sender) mod 6)).

(** A sender is a string of UTF-16 code units. *)
Definition code_units (s : text) : Prop :=
  Forall (fun c => (c < 65536)%N) s.

Local Close Scope Z_scope.

(** *** [handleViewClick] *)

(** [`tôi muốn xem email "${email.subject}"`] *)
Definition view_message (subject : text) : text :=
  lit "tôi muốn xem email " ++ [34] ++ subject ++ [34].

(** What [fetch(`http://localhost:8000/api/email/${email.index}`)] and
    [response.json()] do. *)
Inductive email_response : Type :=
| EmailFetchRejected
| EmailResponse (ok : bool) (body : option text).

Inductive view_effect : Type :=
| SetLoadingIndex (i : option N)
| FetchEmail (index : N)
| CallDirectEmailFetch (data_content : text)
| CallViewEmail (message : text)
| ResetLoadingIndexAfter (ms : nat).

(** [handleViewClick(email)]; the two callbacks are optional props. *)
Definition handleViewClick (onViewEmail onDirectEmailFetch : bool)
    (index : N) (subject : text) (resp : email_response)
  : list view_effect :=
  let fallback :=
    if onViewEmail then [CallViewEmail (view_message subject)] else [] in
  [SetLoadingIndex (Some index); FetchEmail index]
  ++ match resp with
     | EmailResponse true (Some data_content) =>
         if onDirectEmailFetch then [CallDirectEmailFetch data_content]
         else []
     | EmailResponse true None => fallback
     | EmailResponse false _ => fallback
     | EmailFetchRejected => fallback
     end
  ++ [ResetLoadingIndexAfter 500].

(** *** The link component of [MarkdownRenderer] *)

(** The text shown for a link whose child is the string [children]:
    a URL longer than 50 is cut to 47 and three dots. *)
Definition link_display (children : text) : text :=
  if starts_with (lit "http") children && (50 <? length children)%nat
  then firstn 47 children ++ lit "..."
  else children.

End EmailViews.

(* ===================================================================== *)
(** ** Session list of the application store ([useAppStore])              *)
(* ===================================================================== *)

Module SessionStore.

Record ChatSession : Type := {
  session_id : text;
  title : text;
  created_at : text;
  message_count : nat
}.

(** What [fetch(..., { method: 'DELETE' })] does: it rejects, or it gives
    a response with its [ok] flag. *)
Inductive delete_response : Type :=
| DeleteRejected
| DeleteResponse (ok : bool).

(** [deleteSession(id)]: the new session list and the value returned. *)
Definition deleteSession (sessions : list ChatSession) (id : text)
    (resp : delete_response) : list ChatSession * bool :=
  match resp with
  | DeleteResponse true =>
      (List.filter (fun s => negb (bool_decide (session_id s = id))) sessions,
       true)
  | DeleteResponse false => (sessions, false)
  | DeleteRejected => (sessions, false)
  end.

End SessionStore.

(* ===================================================================== *)
(** ** Process-wide singletons of the backend                             *)
(* ===================================================================== *)

Module Singletons.

Import MemoryStore.

Inductive client_event : Type :=
| ClientLockAcquire
| Makedirs
| OpenPersistentClient
| ClientLockRelease.

Section ChromaClient.
(** The handle [chromadb.PersistentClient(path=CHROMA_PATH)] returns. *)
Variable client : Type.

(** What the file system and ChromaDB do during one call, if they are
    asked: [os.makedirs] raises or not, the constructor returns a client
    or raises. *)
Record client_env : Type := {
  makedirs_raises : option text;
  open_client : outcome client
}.

(** [get_chroma_client()]: the global [_chroma_client] before the call,
    what the call returns or raises, the global after it, and the steps
    taken.  The lock is released when the [with] block is left, also by
    an exception. *)
Definition get_chroma_client (_chroma_client : option client)
    (env : client_env)
  : outcome client * option client * list client_event :=
  match _chroma_client with
  | Some c => (Ok c, Some c, [ClientLockAcquire; ClientLockRelease])
  | None =>
    match makedirs_raises env with
    | Some e =>
        (Raise e, None, [ClientLockAcquire; Makedirs; ClientLockRelease])
    | None =>
      match open_client env with
      | Ok c =>
          (Ok c, Some c,
           [ClientLockAcquire; Makedirs; OpenPersistentClient;
            ClientLockRelease])
      | Raise e =>
          (Raise e, None,
           [ClientLockAcquire; Makedirs; OpenPersistentClient;
            ClientLockRelease])
      end
    end
  end.

(** A sequence of calls, one environment per call: the results and steps
    of the calls, and the global at the end. *)
Fixpoint client_calls (_chroma_client : option client)
    (envs : list client_env)
  : list (outcome client * list client_event) * option client :=
  match envs with
  | [] => ([], _chroma_client)
  | env :: rest =>
      let '(r, st, ev) := get_chroma_client _chroma_client env in
      let '(rs, final) := client_calls st rest in
      ((r, ev) :: rs, final)
  end.

End ChromaClient.

Arguments makedirs_raises {client} _.
Arguments open_client {client} _.

Inductive agent_event : Type :=
| MakeLlm
| MakeAgent.

Section AgentCache.
Variable llm agent : Type.

(** What [ChatGroq(...)] and [create_react_agent(_llm, tools, prompt)] do
    during one call, if they are asked. *)
Record agent_env : Type := {
  make_llm : outcome llm;
  make_agent : llm -> outcome agent
}.

(** The globals [_agent] and [_llm]. *)
Record agent_globals : Type := {
  _agent : option agent;
  _llm : option llm
}.

(** [get_or_create_agent()] after the optimisation. *)
Definition get_or_create_agent (g : agent_globals) (env : agent_env)
  : outcome agent * agent_globals * list agent_event :=
  match _agent g with
  | Some a => (Ok a, g, [])
  | None =>
    match _llm g with
    | Some l =>
      match make_agent env l with
      | Ok a => (Ok a, {| _agent := Some a; _llm := Some l |}, [MakeAgent])
      | Raise e => (Raise e, g, [MakeAgent])
      end
    | None =>
      match make_llm env with
      | Raise e => (Raise e, g, [MakeLlm])
      | Ok l =>
        match make_agent env l with
        | Ok a =>
            (Ok a, {| _agent := Some a; _llm := Some l |},
             [MakeLlm; MakeAgent])
        | Raise e =>
            (Raise e, {| _agent := None; _llm := Some l |},
             [MakeLlm; MakeAgent])
        end
      end
    end
  end.

Fixpoint agent_calls (g : agent_globals) (envs : list agent_env)
  : list (outcome agent * list agent_event) * agent_globals :=
  match envs with
  | [] => ([], g)
  | env :: rest =>
      let '(r, g', ev) := get_or_create_agent g env in
      let '(rs, final) := agent_calls g' rest in
      ((r, ev) :: rs, final)
  end.

(** The constructions of the language model that succeeded, over a
    sequence of calls. *)
Fixpoint llm_built (g : agent_globals) (envs : list agent_env) : nat :=
  match envs with
  | [] => 0
  | env :: rest =>
      let '(r, g', ev) := get_or_create_agent g env in
      (match _llm g, _llm g' with
       | None, Some _ => 1
       | _, _ => 0
       end) + llm_built g' rest
  end.

End AgentCache.

Arguments make_llm {llm agent} _.
Arguments make_agent {llm agent} _ _.
Arguments _agent {llm agent} _.
Arguments _llm {llm agent} _.

End Singletons.

(* ===================================================================== *)
(** ** Quiz card ([QuizMessage.tsx])                                      *)
(* ===================================================================== *)

Module Quiz.

Record QuizQuestion : Type := {
  question : text;
  options : list text;
  correct_answer : text;
  explanation : text
}.

(** The five [useState] cells of the component. *)
Record quiz_state : Type := {
  currentIndex : nat;
  selected : option text;
  answered : bool;
  score : nat;
  complete : bool
}.

Definition initial_quiz : quiz_state :=
  {| currentIndex := 0; selected := None; answered := false; score := 0;
     complete := false |}.

Inductive click : Type :=
| Select (opt : text)
| Next
| Restart.

Section Component.
(** [String.prototype.toUpperCase] and [toLowerCase]. *)
Variable toUpperCase toLowerCase : text -> text.
Variable questions : list QuizQuestion.

Definition total : nat := length questions.

(** [s.charAt(0)] *)
Definition charAt0 (s : text) : text := firstn 1 s.

(** The test of [handleSelect] (and of [getStyle]). *)
Definition is_correct (opt correct : text) : bool :=
  bool_decide (toUpperCase (charAt0 opt) = toUpperCase (charAt0 correct))
  || bool_decide (toLowerCase opt = toLowerCase correct).

(** [handleSelect(opt)].  [current] is [questions[currentIndex]]; were
    it undefined, reading [current.correct_answer] would throw after the
    two state updates. *)
Definition handleSelect (st : quiz_state) (opt : text) : quiz_state :=
  if answered st then st
  else
    match nth_error questions (currentIndex st) with
    | Some current =>
        {| currentIndex := currentIndex st; selected := Some opt;
           answered := true;
           score := if is_correct opt (correct_answer current)
                    then score st + 1 else score st;
           complete := complete st |}
    | None =>
        {| currentIndex := currentIndex st; selected := Some opt;
           answered := true; score := score st; complete := complete st |}
    end.

(** [handleNext()]: the test is [currentIndex < total - 1]; with
    [total = 0] the right-hand side is -1 in the source and 0 here, and
    the test fails in both. *)
Definition handleNext (st : quiz_state) : quiz_state :=
  if currentIndex st <? total - 1 then
    {| currentIndex := currentIndex st + 1; selected := None;
       answered := false; score := score st; complete := complete st |}
  else
    {| currentIndex := currentIndex st; selected := selected st;
       answered := answered st; score := score st; complete := true |}.

Definition restart (st : quiz_state) : quiz_state := initial_quiz.

(** One click, handled after the render that followed the previous
    one. *)
Definition quiz_step (st : quiz_state) (c : click) : quiz_state :=
  match c with
  | Select opt => handleSelect st opt
  | Next => handleNext st
  | Restart => restart st
  end.

Definition quiz_run (st : quiz_state) (cs : list click) : quiz_state :=
  fold_left quiz_step cs st.

(** The clicks of a user who answers each question and presses the
    button below it. *)
Definition answer_all (answers : list text) : list click :=
  flat_map (fun opt => [Select opt; Next]) answers.

(** The answers that [handleSelect] counts, question by question. *)
Fixpoint count_correct (qs : list QuizQuestion) (answers : list text)
  : nat :=
  match qs, answers with
  | q :: qs', opt :: answers' =>
      (if is_correct opt (correct_answer q) then 1 else 0)
      + count_correct qs' answers'
  | _, _ => 0
  end.

End Component.

End Quiz.

(* ===================================================================== *)
(** ** Document upload ([handleFileUpload] of [ChatContainer.tsx])        *)
(* ===================================================================== *)

Module Upload.

Import Client.

Local Open Scope N_scope.

(** [name.split(".")]: the segments between the dots (code unit 46). *)
Fixpoint split_dot (s : text) : list text :=
  match s with
  | [] => [[]]
  | c :: r =>
      if c =? 46 then [] :: split_dot r
      else match split_dot r with
           | p :: ps => (c :: p) :: ps
           | [] => [[c]]
           end
  end.

(** A literal of the source as UTF-16 code units: a code point beyond
    the Basic Multilingual Plane, such as the page emoji, is a surrogate
    pair. *)
Definition utf16_units (c : N) : list N :=
  if c <? 65536 then [c]
  else [55296 + (c - 65536) / 1024; 56320 + (c - 65536) mod 1024].

Definition js_lit (s : string) : text := flat_map utf16_units (lit s).

Local Close Scope N_scope.

(** [.pop()] of a non-empty array. *)
Definition pop (l : list text) : text := List.last l [].

Definition validTypes : list text :=
  [lit ".pdf"; lit ".txt"; lit ".docx"; lit ".doc"].

(** ["." + file.name.split(".").pop()?.toLowerCase()].  [toLowerCase]
    is taken with the table of [py_lower]: the letters of the four
    extensions are reached from their ASCII capitals only, in that table
    and in ECMAScript alike. *)
Definition fileExt (name : text) : text :=
  lit "." ++ py_lower (pop (split_dot name)).

(** [validTypes.includes(fileExt)] *)
Definition valid_file (name : text) : bool :=
  existsb (fun t => bool_decide (t = fileExt name)) validTypes.

(** The answer to [POST /chat/sessions]: the fetch rejects, or gives a
    response with its [ok] flag and, when the body parses to something
    with properties, its [id] (the empty text for a missing or falsy
    one); [None] is a body on which [json()] or the read of [.id]
    throws. *)
Inductive create_response : Type :=
| CreateRejected
| CreateResponse (ok : bool) (new_id : option text).

(** The document the upload answers with, its fields as the template
    literal prints them. *)
Record Document : Type := {
  doc_id : text;
  filename : text;
  page_count : text
}.

Inductive upload_response : Type :=
| UploadRejected
| UploadResponse (ok : bool) (doc : option Document).

Inductive upload_effect : Type :=
| AppendChatMessage (m : ChatMessage)
| SetIsUploading (b : bool)
| PostCreateSession (session_title : text)
| OnSessionCreated (new_id : text)
| PostUpload (file_name : text)
| OnDocumentAttached (doc : Document)
| ClearFileInput.

Section Handler.
(** The [sessionId] prop, whether the two optional callbacks are given,
    whether [fileInputRef.current] is set, and [Date.now()] at the one
    message of a run. *)
Variable sessionId : option text.
Variable has_onSessionCreated has_onDocumentAttached : bool.
Variable input_mounted : bool.
Variable now : text.

Definition unsupported_message : ChatMessage :=
  plain_message now Assistant
    (js_lit "⚠️ Chỉ hỗ trợ file PDF, TXT, hoặc Word (.docx).").

Definition failure_message : ChatMessage :=
  plain_message now Assistant
    (js_lit "❌ Không thể tải file lên. Vui lòng thử lại.").

Definition success_message (doc : Document) : ChatMessage :=
  plain_message now Assistant
    (js_lit "📄 **" ++ filename doc ++ js_lit "** đã được tải lên ("
     ++ page_count doc
     ++ js_lit " trang). Bạn có thể hỏi về nội dung hoặc tạo quiz từ tài liệu này.").

Definition has_session : bool :=
  match sessionId with
  | Some sid => truthy sid
  | None => false
  end.

(** The block that creates a session when there is none: its effects,
    and whether it threw. *)
Definition create_session (name : text) (created : create_response)
  : list upload_effect * bool :=
  if has_session then ([], false)
  else
    let post := PostCreateSession (js_lit "📄 " ++ name) in
    match created with
    | CreateRejected => ([post], true)
    | CreateResponse false _ => ([post], false)
    | CreateResponse true None => ([post], true)
    | CreateResponse true (Some new_id) =>
        if has_onSessionCreated && truthy new_id
        then ([post; OnSessionCreated new_id], false)
        else ([post], false)
    end.

(** The rest of the [try] block: its effects, and whether it threw. *)
Definition upload_document (name : text) (uploaded : upload_response)
  : list upload_effect * bool :=
  match uploaded with
  | UploadRejected => ([PostUpload name], true)
  | UploadResponse false _ => ([PostUpload name], true)
  | UploadResponse true None => ([PostUpload name], true)
  | UploadResponse true (Some doc) =>
      (PostUpload name
         :: (if has_onDocumentAttached then [OnDocumentAttached doc] else [])
         ++ [AppendChatMessage (success_message doc)],
       false)
  end.

(** The [try] block. *)
Definition try_block (name : text) (created : create_response)
    (uploaded : upload_response) : list upload_effect * bool :=
  let '(e1, threw1) := create_session name created in
  if threw1 then (e1, true)
  else
    let '(e2, threw2) := upload_document name uploaded in
    (e1 ++ e2, threw2).

Definition finally_block : list upload_effect :=
  SetIsUploading false :: (if input_mounted then [ClearFileInput] else []).

(** [handleFileUpload(e)], with [e.target.files?.[0]] as the name of the
    file, if there is one. *)
Definition handleFileUpload (file : option text) (created : create_response)
    (uploaded : upload_response) : list upload_effect :=
  match file with
  | None => []
  | Some name =>
      if negb (valid_file name) then [AppendChatMessage unsupported_message]
      else
        let '(body, threw) := try_block name created uploaded in
        SetIsUploading true :: body
          ++ (if threw then [AppendChatMessage failure_message] else [])
          ++ finally_block
  end.

End Handler.

Definition is_append (e : upload_effect) : bool :=
  match e with AppendChatMessage _ => true | _ => false end.

Definition is_request (e : upload_effect) : bool :=
  match e with PostCreateSession _ | PostUpload _ => true | _ => false end.

Definition is_uploading_flag (e : upload_effect) : bool :=
  match e with SetIsUploading _ => true | _ => false end.

End Upload.

(* ===================================================================== *)
(** ** Email list of an answer ([parseEmailList] of [EmailCard])          *)
(* ===================================================================== *)

Module EmailList.

Local Open Scope N_scope.

(** [index] is [parseInt] of the digits the pattern captured; the
    digits themselves are kept here. *)
Record EmailItem : Type := {
  index_digits : text;
  sender : text;
  subject : text;
  date : text;
  hasAttachment : bool
}.

(** [content.split("\n")] *)
Fixpoint split_lines (s : text) : list text :=
  match s with
  | [] => [[]]
  | c :: r =>
      if c =? 10 then [] :: split_lines r
      else match split_lines r with
           | p :: ps => (c :: p) :: ps
           | [] => [[c]]
           end
  end.

(** [\d] *)
Definition is_digit (c : N) : bool := (48 <=? c) && (c <=? 57).

(** The code units [.] does not match. *)
Definition is_line_terminator (c : N) : bool :=
  (c =? 10) || (c =? 13) || (c =? 8232) || (c =? 8233).

(** The longest prefix of units that satisfy [f], and the rest. *)
Fixpoint span (f : N -> bool) (s : text) : text * text :=
  match s with
  | [] => ([], [])
  | c :: r =>
      if f c then let '(a, b) := span f r in (c :: a, b)
      else ([], s)
  end.

(** [line.match(/^\[(\d+)\]\s*(.+)$/)]: the two groups.  [\d+] takes
    all the digits there are, and the closing bracket has to follow.
    [\s*] takes all the white space there is; what is left has to be
    matched by [.+] up to the end of the line, so it must hold no line
    terminator; when nothing is left, [\s*] gives back its last unit to
    [.+]. *)
Definition match_line (line : text) : option (text * text) :=
  match line with
  | [] => None
  | c :: r =>
    if c =? 91 then
      let '(digits, r1) := span is_digit r in
      match digits, r1 with
      | _ :: _, c1 :: tail =>
        if c1 =? 93 then
          let '(w, rest) := span js_is_space tail in
          match rest with
          | _ :: _ =>
              if forallb (fun u => negb (is_line_terminator u)) rest
              then Some (digits, rest) else None
          | [] =>
              match rev w with
              | u :: _ =>
                  if is_line_terminator u then None else Some (digits, [u])
              | [] => None
              end
          end
        else None
      | _, _ => None
      end
    else None
  end.

Local Close Scope N_scope.

(** [s.split(sep)] for a separator that is not empty: the text is
    scanned from the left, and the units of a separator that was found
    are skipped. *)
Fixpoint split_go (sep : text) (skip : nat) (s : text) : list text :=
  match skip, s with
  | S k, _ :: r => split_go sep k r
  | S _, [] => [[]]
  | 0, [] => [[]]
  | 0, c :: r =>
      if starts_with sep s then [] :: split_go sep (length sep - 1) r
      else match split_go sep 0 r with
           | p :: ps => (c :: p) :: ps
           | [] => [[c]]
           end
  end.

Definition split_sep (sep s : text) : list text := split_go sep 0 s.

(** [ps.join(sep)] *)
Fixpoint join (sep : text) (ps : list text) : text :=
  match ps with
  | [] => []
  | [p] => p
  | p :: ps' => p ++ sep ++ join sep ps'
  end.

(** [a || b] on strings. *)
Definition js_or (a b : text) : text := if truthy a then a else b.

(** The body of the loop: the item a line adds, if it adds one. *)
Definition parse_line (line : text) : option EmailItem :=
  match match_line line with
  | None => None
  | Some (digits, rest) =>
      let parts := split_sep (lit " - ") rest in
      if 3 <=? length parts then
        Some {| index_digits := digits;
                sender := js_or (js_trim (hd [] parts)) (lit "Unknown Sender");
                subject :=
                  js_or (js_trim (join (lit " - ") (removelast (tl parts))))
                        (lit "No Subject");
                date := js_or (js_trim (List.last parts []))
                              (lit "Unknown Date");
                hasAttachment := py_in (lit "Attachment") line |}
      else None
  end.

Definition parseEmailList (content : text) : list EmailItem :=
  flat_map (fun line => match parse_line line with
                        | Some e => [e]
                        | None => []
                        end)
           (split_lines content).

(** A line of the shape the parser is written for:
    [[n] sender - subject - date]. *)
Definition email_line (digits sender subject date : text) : text :=
  lit "[" ++ digits ++ lit "] " ++ sender ++ lit " - " ++ subject
    ++ lit " - " ++ date.

(** A field as it comes out of [trim] and [||]: not blank, no white
    space at either end, and on one line. *)
Definition clean_field (s : text) : Prop :=
  s <> [] /\ js_trim s = s /\
  forallb (fun u => negb (is_line_terminator u)) s = true.

End EmailList.

(* ===================================================================== *)
(** * Verified properties                                                 *)
(* ===================================================================== *)

(** ** Text helpers on the literals of the sources *)

Example lit_vietnamese : lit "Lỗi" = [76; 7895; 105]%N.
Proof. reflexivity. Qed.

Example lower_chao : py_lower (lit "CHÀO Hi") = lit "chào hi".
Proof. reflexivity. Qed.

Example in_hi : py_in (lit "hi") (lit "this") = true.
Proof. reflexivity. Qed.

Example trim_spaces : js_trim (lit "  mail  ") = lit "mail".
Proof. reflexivity. Qed.

(** ** Memory store *)

Import MemoryStore.

Section RetryFacts.
Context {A : Type}.
Variable max_retries retry_delay : nat.
Variable engine : nat -> outcome A.

Local Abbreviation retry := (retry_from max_retries retry_delay engine).

(** The lock brackets every engine call, whatever the engine answers. *)
Lemma retry_from_lock_disciplined fuel attempt last :
  lock_disciplined false (snd (retry fuel attempt last)) = true.
Proof.
  revert attempt last.
  induction fuel as [|fuel IH]; intros attempt last; simpl; [reflexivity|].
  destruct (engine attempt) as [a|e]; simpl; [reflexivity|].
  specialize (IH (S attempt) (Some e)).
  destruct (retry fuel (S attempt) (Some e)) as [r rest]; simpl in *.
  unfold backoff. destruct (attempt <? max_retries - 1); simpl; exact IH.
Qed.

(** The attempts made are consecutive, starting where the loop is entered,
    and never more than the range allows. *)
Lemma retry_from_calls_bounded fuel attempt last :
  exists n, n <= fuel /\
    engine_calls (snd (retry fuel attempt last)) = seq attempt n.
Proof.
  revert attempt last.
  induction fuel as [|fuel IH]; intros attempt last; simpl.
  - exists 0. split; [lia | reflexivity].
  - destruct (engine attempt) as [a|e]; simpl.
    + exists 1. split; [lia | reflexivity].
    + destruct (IH (S attempt) (Some e)) as (n & Hn & Hc).
      destruct (retry fuel (S attempt) (Some e)) as [r rest]; simpl in *.
      exists (S n). split; [lia|].
      unfold backoff. destruct (attempt <? max_retries - 1); simpl;
        rewrite Hc; reflexivity.
Qed.

(** First success after [k] failures: the value of that attempt comes
    back, after [k] sleeps of linearly growing length. *)
Lemma retry_from_success fuel attempt last k a :
  attempt + fuel = max_retries ->
  k < fuel ->
  (forall i, i < k -> raises (engine (attempt + i)) = true) ->
  engine (attempt + k) = Ok a ->
  fst (retry fuel attempt last) = Succeeded a /\
  sleeps (snd (retry fuel attempt last))
    = map (fun n => retry_delay * n) (seq (attempt + 1) k) /\
  engine_calls (snd (retry fuel attempt last)) = seq attempt (k + 1).
Proof.
  revert attempt last k.
  induction fuel as [|fuel IH]; intros attempt last k Hinv Hk Hfail Hok;
    [lia|].
  simpl. destruct k as [|k].
  - rewrite Nat.add_0_r in Hok. rewrite Hok. simpl. auto.
  - pose proof (Hfail 0 ltac:(lia)) as H0. rewrite Nat.add_0_r in H0.
    destruct (engine attempt) as [a0|e]; [discriminate|]. simpl.
    destruct (IH (S attempt) (Some e) k) as (Hv & Hs & Hc); try lia.
    + intros i Hi. replace (S attempt + i) with (attempt + S i) by lia.
      apply Hfail. lia.
    + replace (S attempt + k) with (attempt + S k) by lia. exact Hok.
    + destruct (retry fuel (S attempt) (Some e)) as [r rest]; simpl in *.
      unfold backoff.
      destruct (Nat.ltb_spec attempt (max_retries - 1)) as [_|Hge]; [|lia].
      simpl. rewrite Hs, Hc.
      replace (S attempt + 1) with (S (attempt + 1)) by lia. auto.
Qed.

(** Every attempt fails: the loop is left without a value after exactly
    [fuel] attempts, having slept after all of them but the last. *)
Lemma retry_from_exhausted fuel attempt last :
  attempt + fuel = max_retries ->
  (forall i, i < fuel -> raises (engine (attempt + i)) = true) ->
  (exists last', fst (retry fuel attempt last) = Exhausted last') /\
  sleeps (snd (retry fuel attempt last))
    = map (fun n => retry_delay * n) (seq (attempt + 1) (fuel - 1)) /\
  engine_calls (snd (retry fuel attempt last)) = seq attempt fuel.
Proof.
  revert attempt last.
  induction fuel as [|fuel IH]; intros attempt last Hinv Hfail; simpl.
  - split; [eauto | split; reflexivity].
  - pose proof (Hfail 0 ltac:(lia)) as H0. rewrite Nat.add_0_r in H0.
    destruct (engine attempt) as [a0|e]; [discriminate|]. simpl.
    destruct (IH (S attempt) (Some e)) as (Hv & Hs & Hc); try lia.
    + intros i Hi. replace (S attempt + i) with (attempt + S i) by lia.
      apply Hfail. lia.
    + destruct (retry fuel (S attempt) (Some e)) as [r rest]; simpl in *.
      unfold backoff. rewrite Nat.sub_0_r.
      destruct (Nat.ltb_spec attempt (max_retries - 1)) as [Hlt|Hge]; simpl.
      * rewrite Hs, Hc. destruct fuel as [|fuel']; [lia|]. simpl.
        rewrite Nat.sub_0_r.
        replace (S attempt + 1) with (S (attempt + 1)) by lia. auto.
      * rewrite Hs, Hc. assert (fuel = 0) by lia. subst fuel. simpl. auto.
Qed.

End RetryFacts.

Lemma store_operation_contract {A} max_retries retry_delay
    (engine : nat -> outcome A) fallback :
  retry_contract max_retries retry_delay engine fallback
    (store_operation max_retries retry_delay engine fallback).
Proof.
  unfold retry_contract, store_operation, with_retry, all_raise; simpl.
  repeat split.
  - destruct (retry_from_success max_retries retry_delay engine
                max_retries 0 None k a) as (Hv & _); auto.
    rewrite Hv. reflexivity.
  - destruct (retry_from_success max_retries retry_delay engine
                max_retries 0 None k a) as (_ & Hs & _); auto.
  - destruct (retry_from_success max_retries retry_delay engine
                max_retries 0 None k a) as (_ & _ & Hc); auto.
  - destruct (retry_from_exhausted max_retries retry_delay engine
                max_retries 0 None) as ((last & Hv) & _); auto.
    exists last. rewrite Hv. reflexivity.
  - destruct (retry_from_exhausted max_retries retry_delay engine
                max_retries 0 None) as (_ & Hs & _); auto.
  - destruct (retry_from_exhausted max_retries retry_delay engine
                max_retries 0 None) as (_ & _ & Hc); auto.
  - apply retry_from_lock_disciplined.
  - destruct (retry_from_calls_bounded max_retries retry_delay engine
                max_retries 0 None) as (n & Hn & Hc).
    rewrite Hc, length_seq. exact Hn.
Qed.

(** C1, as amended.  Each memory operation of the code
    ([save_to_memory], [query_memory], [get_memory_by_id]) runs its engine
    call under the lock inside the bounded retry loop: any exception of
    the engine (a transient lock error included) is followed by a wait of
    [retry_delay * attempt_number] and a new attempt, up to [max_retries]
    attempts.  If an attempt inside the limit succeeds, the operation
    returns that attempt's result and nothing of the earlier failures.
    If every attempt fails, the operation does not raise: it returns its
    fallback, which is a descriptive string for [save_to_memory], the
    empty list for [query_memory] and [None] for [get_memory_by_id]. *)
Theorem memory_operations_retry_then_degrade :
  forall max_retries retry_delay : nat,
    (forall describe engine,
        retry_contract max_retries retry_delay engine describe
          (save_to_memory describe max_retries retry_delay engine)) /\
    (forall (D : Type) (engine : nat -> outcome (list D)),
        retry_contract max_retries retry_delay engine (fun _ => [])
          (query_memory max_retries retry_delay engine)) /\
    (forall (D : Type) (engine : nat -> outcome (option D)),
        retry_contract max_retries retry_delay engine (fun _ => None)
          (get_memory_by_id max_retries retry_delay engine)).
Proof.
  intros max_retries retry_delay.
  split; [|split]; intros; apply store_operation_contract.
Qed.

(** With the configured 3 attempts and 0.5 s base delay, a store that
    stays locked is called three times, with waits of 500 ms and 1000 ms
    in between (no wait follows the last attempt). *)
Example with_retry_exhausted_trace :
  with_retry MAX_RETRIES RETRY_DELAY
    (fun _ => Raise (A := text) (lit "database is locked"))
  = (Exhausted (Some (lit "database is locked")),
     [LockAcquire; EngineCall 0; LockRelease; Sleep 500;
      LockAcquire; EngineCall 1; LockRelease; Sleep 1000;
      LockAcquire; EngineCall 2; LockRelease]).
Proof. reflexivity. Qed.

(** The scenario of the specification: two lock errors, then success on
    the third attempt, with the configured 3 attempts and 0.5 s base
    delay.  The id comes back after waits of 500 ms and 1000 ms. *)
Lemma memory_operations_retry_then_degrade_witness :
  fst (save_to_memory describe_failure MAX_RETRIES RETRY_DELAY locked_twice)
    = lit "doc_42" /\
  sleeps (snd (save_to_memory describe_failure MAX_RETRIES RETRY_DELAY
                 locked_twice))
    = [500; 1000].
Proof.
  destruct (memory_operations_retry_then_degrade MAX_RETRIES RETRY_DELAY)
    as (Hsave & _ & _).
  destruct (Hsave describe_failure locked_twice) as (Hok & _).
  destruct (Hok 2 (lit "doc_42")) as (Hv & Hs & _).
  - unfold MAX_RETRIES. lia.
  - intros i Hi. destruct i as [|[|i]]; [reflexivity | reflexivity | lia].
  - reflexivity.
  - split; [exact Hv | exact Hs].
Defined.

(** C1, as stated, fails on [query_memory]: with every attempt locked out
    the caller receives the empty list, which is also what a successful
    query without matches returns.  No test on the returned value can
    tell the two apart, so no typed unavailability error reaches the
    caller. *)
Lemma query_memory_exhausted_is_untyped :
  ~ exists classify : list text -> bool,
      classify (fst (query_memory MAX_RETRIES RETRY_DELAY
                       (fun _ => Raise (lit "database is locked")))) = true /\
      classify (fst (query_memory MAX_RETRIES RETRY_DELAY
                       (fun _ => Ok []))) = false.
Proof.
  intros (classify & Hfail & Hok). simpl in Hfail, Hok. congruence.
Qed.

(** ** Tiered store: supersession and ranked query *)

Import TieredStore.

Section StoreFacts.
Context {E : Type}.
Variable embed : text -> E.
Variable similarity : E -> E -> Z.

Lemma fresh_id_unused (s : store E) : get s (fresh_id s) = None.
Proof.
  unfold get, fresh_id. apply not_elem_of_dom. apply is_fresh.
Qed.

(** Writing a record leaves every record that was there as it was. *)
Lemma write_frame (s : store E) t txt md id :
  id <> fst (write E embed s t txt md) ->
  get (snd (write E embed s t txt md)) id = get s id.
Proof.
  unfold write, get; simpl. intros Hne.
  rewrite lookup_insert_ne; [reflexivity | congruence].
Qed.

Lemma write_reads_back (s : store E) t txt md :
  exists r, get (snd (write E embed s t txt md)) (fst (write E embed s t txt md))
              = Some r /\
            rec_text r = txt /\ rec_metadata r = md /\ rec_tier r = t.
Proof.
  unfold write, get; simpl. eexists. rewrite lookup_insert_eq.
  split; [reflexivity|]. simpl. auto.
Qed.

Lemma write_id_is_new (s : store E) t txt md id r :
  get s id = Some r -> fst (write E embed s t txt md) <> id.
Proof.
  unfold write; simpl. intros Hget Heq. subst id.
  rewrite fresh_id_unused in Hget. discriminate.
Qed.

(** [put] never changes a record that is there. *)
Lemma put_frame (s : store E) t txt md id r :
  get s id = Some r -> get (snd (put E embed s t txt md)) id = Some r.
Proof.
  intros Hget. unfold put.
  destruct (md_external_key md ≫= find_by_key s); [exact Hget|].
  rewrite write_frame; [exact Hget|].
  intros ->. eapply write_id_is_new; [exact Hget | reflexivity].
Qed.

#[local] Instance ranks_before_total q : Total (ranks_before similarity q).
Proof.
  intros a b. unfold ranks_before.
  destruct (Z.lt_total (similarity q (rec_embedding a))
                       (similarity q (rec_embedding b))) as [H|[H|H]];
    [right; left; lia | | left; left; lia].
  destruct (Nat.le_ge_cases (rec_created_at a) (rec_created_at b)).
  - right. right. split; [congruence | assumption].
  - left. right. split; [congruence | assumption].
Qed.

#[local] Instance ranks_before_trans q : Transitive (ranks_before similarity q).
Proof.
  intros a b c. unfold ranks_before. intros [H1|[H1 H1']] [H2|[H2 H2']].
  - left. lia.
  - left. lia.
  - left. lia.
  - right. split; [congruence | lia].
Qed.

(** The ranked query returns the best [limit] eligible records. *)
Lemma query_is_top (s : store E) tiers txt session_id limit :
  let best := query E embed similarity s tiers txt session_id limit in
  let rest := query_rest E embed similarity s tiers txt session_id limit in
  length best <= limit /\
  StronglySorted (ranks_before similarity (embed txt)) best /\
  (forall r, In r best ->
     In r (all_records s) /\ eligible tiers session_id r = true) /\
  (forall r r', In r best -> In r' rest ->
     ranks_before similarity (embed txt) r r') /\
  Permutation (best ++ rest)
    (List.filter (eligible tiers session_id) (all_records s)).
Proof.
  unfold query, query_rest.
  set (sorted := merge_sort _ _).
  assert (Hsorted : StronglySorted (ranks_before similarity (embed txt)) sorted)
    by apply (StronglySorted_merge_sort _).
  assert (Hperm : Permutation sorted
            (List.filter (eligible tiers session_id) (all_records s)))
    by apply merge_sort_Permutation.
  rewrite <- (take_drop limit sorted) in Hsorted.
  apply StronglySorted_app in Hsorted as (Hcross & Hbest & _).
  cbv zeta. repeat split.
  - rewrite length_take. lia.
  - exact Hbest.
  - assert (Hin : In r sorted).
    { rewrite <- (take_drop limit sorted). apply in_or_app. auto. }
    eapply Permutation_in in Hin; [|exact Hperm].
    apply filter_In in Hin. tauto.
  - assert (Hin : In r sorted).
    { rewrite <- (take_drop limit sorted). apply in_or_app. auto. }
    eapply Permutation_in in Hin; [|exact Hperm].
    apply filter_In in Hin. tauto.
  - intros r r' Hr Hr'. apply Hcross; apply list_elem_of_In; assumption.
  - rewrite take_drop. exact Hperm.
Qed.

(** C6.  For an existing record [old_id], [supersede] writes a new
    record, under a new id, that carries the new text and points back at
    [old_id]; [get old_id] still returns the original record, and every
    other record of the store is as it was: nothing is deleted or
    changed in place. *)
Theorem supersede_keeps_old_record :
  forall (s : store E) (old_id : N) (r : MemoryRecord E)
         (new_text : text) (md : metadata),
    get s old_id = Some r ->
    let new_id := fst (supersede E embed s old_id new_text md) in
    let s' := snd (supersede E embed s old_id new_text md) in
    get s' old_id = Some r /\
    new_id <> old_id /\
    (exists r', get s' new_id = Some r' /\
                rec_text r' = new_text /\
                md_supersedes (rec_metadata r') = Some old_id) /\
    (forall id, id <> new_id -> get s' id = get s id).
Proof.
  intros s old_id r new_text md Hget. cbv zeta. unfold supersede.
  set (t := default PermanentTier (rec_tier <$> get s old_id)).
  pose proof (write_id_is_new s t new_text (link_to old_id md) old_id r Hget)
    as Hnew.
  repeat split.
  - rewrite write_frame; [exact Hget | congruence].
  - exact Hnew.
  - destruct (write_reads_back s t new_text (link_to old_id md))
      as (r' & Hr' & Htxt & Hmd & _).
    exists r'. rewrite Hmd. auto.
  - intros id Hid. apply write_frame. exact Hid.
Qed.

End StoreFacts.

(** A permanent fact is superseded in the example store: the record with
    id 0 is still the original. *)
Lemma supersede_keeps_old_record_witness :
  exists r,
    get example_store 0%N = Some r /\
    get (snd (supersede text example_embed example_store 0%N
                (lit "name: Joshua") no_metadata)) 0%N = Some r.
Proof.
  eexists. split; [vm_compute; reflexivity|].
  refine (proj1 (supersede_keeps_old_record example_embed example_store 0%N _
                   (lit "name: Joshua") no_metadata _)).
  vm_compute. reflexivity.
Defined.

(** ** Context assembler *)

Import ContextAssembler.

Example greeting_is_simple : is_simple (lit "hi") = true.
Proof. reflexivity. Qed.

Example greeting_vietnamese_is_simple : is_simple (lit "Chào bạn") = true.
Proof. reflexivity. Qed.

Example long_greeting_is_not_simple :
  is_simple (lit "hello, what did I plan for Friday?") = false.
Proof. reflexivity. Qed.




(** ** Agent loop *)

Import AgentLoop.

Section AgentLoopFacts.
Variable tool_call tool_result : Type.
Variable invoke : list tool_result -> model_reply tool_call.
Variable execute : tool_call -> tool_result.
Variable user_facing_error : text.

Local Abbreviation run_from' :=
  (run_from tool_call tool_result invoke execute user_facing_error).

Local Abbreviation always_requests_tool :=
  (always_requests_tool tool_call tool_result invoke).

Lemma round_trips_step states :
  round_trips (ToolPending :: Executing :: Invoking :: states)
  = S (round_trips states).
Proof. reflexivity. Qed.

Lemma run_from_bounded cap left results :
  let '(out, states, calls) := run_from' cap left results in
  round_trips states <= left /\ ends_turn states.
Proof.
  revert results. induction left as [|left IH]; intros results; simpl.
  - destruct (invoke results); (split; [cbv; lia|]);
      exists []; simpl; auto.
  - destruct (invoke results) as [payload|c cs|e].
    + split; [cbv; lia|]. exists []. auto.
    + specialize (IH (results ++ execute c :: map execute cs)).
      destruct (run_from' cap left _) as [[out states] calls].
      destruct IH as (Hle & before & Hend).
      rewrite round_trips_step. split; [lia|].
      exists (ToolPending :: Executing :: Invoking :: before).
      destruct Hend as [-> | ->]; auto.
    + split; [cbv; lia|]. exists []. auto.
Qed.

Lemma run_from_stubborn cap left results :
  always_requests_tool ->
  let '(out, states, calls) := run_from' cap left results in
  out = Answered (unable_to_complete cap) /\
  round_trips states = left.
Proof.
  intros Halways. revert results.
  induction left as [|left IH]; intros results; simpl;
    destruct (Halways results) as (c & cs & ->).
  - split; reflexivity.
  - specialize (IH (results ++ execute c :: map execute cs)).
    destruct (run_from' cap left _) as [[out states] calls].
    destruct IH as (-> & Hn). rewrite round_trips_step.
    split; [reflexivity | lia].
Qed.

(** C5.  Whatever the model backend answers, a turn makes at most [cap]
    tool round-trips and then ends (in [Done] after [Answering], or in
    [Failed]).  Against a backend that requests a tool call on every
    invocation the turn makes exactly [cap] round-trips and answers with
    the synthesized payload "unable to complete after [cap] tool
    calls". *)
Theorem agent_loop_respects_round_trip_cap :
  forall cap : nat,
    let res :=
      run_turn tool_call tool_result invoke execute user_facing_error cap in
    round_trips (states_of res) <= cap /\
    ends_turn (states_of res) /\
    (always_requests_tool ->
       outcome_of res = Answered (unable_to_complete cap) /\
       round_trips (states_of res) = cap).
Proof.
  intros cap. cbv zeta. unfold run_turn, outcome_of, states_of.
  pose proof (run_from_bounded cap cap []) as Hb.
  pose proof (run_from_stubborn cap cap []) as Hs.
  destruct (run_from' cap cap []) as [[out states] calls]. simpl.
  destruct Hb as (Hle & before & Hend).
  split; [exact Hle|]. split.
  - exists (Assembling :: Invoking :: before).
    destruct Hend as [-> | ->]; auto.
  - intros Halways. exact (Hs Halways).
Qed.

End AgentLoopFacts.

(** The stub backend that always requests a tool, under the cap of 5:
    five round-trips, then the synthesized answer. *)
Lemma agent_loop_respects_round_trip_cap_witness :
  outcome_of (run_turn unit unit stub_invoke id [] MAX_ITERATIONS)
    = Answered (lit "unable to complete after 5 tool calls") /\
  round_trips (states_of (run_turn unit unit stub_invoke id [] MAX_ITERATIONS))
    = 5.
Proof.
  refine (proj2 (proj2 (agent_loop_respects_round_trip_cap unit unit
                          stub_invoke id [] MAX_ITERATIONS)) _).
  intros results. exists tt, []. reflexivity.
Defined.

(** ** Tool wrapper and agent-level error mapping *)

Import Agent.

Lemma error_prefix_length : length (lit "❌ Error: ") = 9.
Proof. reflexivity. Qed.

Lemma py_prefix_length k (s : text) : length (py_prefix k s) <= k.
Proof. unfold py_prefix. rewrite length_firstn. lia. Qed.

(** The text of a tool exception, cut at 100 characters, is what the
    wrapper hands back. *)
Lemma safe_tool_on_raise func args e :
  func args = Raise e ->
  fst (safe_tool func args) = lit "❌ Error: " ++ py_prefix 100 e /\
  length (fst (safe_tool func args)) <= 109.
Proof.
  intros Hraise. unfold safe_tool. rewrite Hraise. cbn [fst].
  split; [reflexivity|].
  rewrite length_app, error_prefix_length.
  pose proof (py_prefix_length 100 e). lia.
Qed.




(** Without the two markers the response of [chat_with_agent] carries the
    first 150 characters of the exception text. *)
Lemma error_response_default (e : text) :
  py_in (lit "tool_use_failed") (py_lower e) = false ->
  py_in (lit "rate_limit") (py_lower e) = false ->
  error_response e = lit "❌ Lỗi: " ++ py_prefix 150 e.
Proof. intros H1 H2. unfold error_response. rewrite H1, H2. reflexivity. Qed.

(** C8 at its failing input.  An exception of the database layer raised
    during the agent run reaches the user word for word: in the response
    of [chat_with_agent], and, sent as an error chunk, in the message the
    client shows. *)
Theorem raw_exception_text_reaches_user :
  let e := lit "sqlite3.OperationalError: attempt to write a readonly database" in
  response (chat_with_agent (M := list text) (MemoryStore.Ok tt)
              (MemoryStore.Ok []) (MemoryStore.Raise e))
    = lit "❌ Lỗi: sqlite3.OperationalError: attempt to write a readonly database" /\
  forall rev sessionId cb aid msgs,
    Client.messages
      (Client.dispatch rev sessionId cb aid (Client.initial_state msgs)
         (Client.Message (Client.Json (Transport.error_chunk e))))
    = msgs ++ [Client.set_content
                 (lit "Lỗi: sqlite3.OperationalError: attempt to write a readonly database")
                 (Client.assistantMessage aid)].
Proof.
  cbv zeta. split; [vm_compute; reflexivity|].
  intros. vm_compute. reflexivity.
Qed.

(** ** Chat client: stream handlers *)

Import Transport Client.

Section ClientFacts.
Variable rev : revision.
Variable sessionId : option text.
Variable onSessionCreated : bool.
Variable assistantMessageId : text.

Local Abbreviation dispatch' :=
  (dispatch rev sessionId onSessionCreated assistantMessageId).
Local Abbreviation run' :=
  (run rev sessionId onSessionCreated assistantMessageId).
Local Abbreviation handled' :=
  (handled rev sessionId onSessionCreated assistantMessageId).

Lemma dispatch_closed s ev : closed s = true -> dispatch' s ev = s.
Proof. intros H. unfold dispatch. rewrite H. reflexivity. Qed.

Lemma run_closed s evs : closed s = true -> run' s evs = s.
Proof.
  revert s. induction evs as [|ev evs IH]; intros s H; simpl; [reflexivity|].
  rewrite dispatch_closed by exact H. apply IH. exact H.
Qed.

Lemma run_app s evs1 evs2 : run' s (evs1 ++ evs2) = run' (run' s evs1) evs2.
Proof. unfold run. apply fold_left_app. Qed.

Lemma run_cons s ev evs : run' s (ev :: evs) = run' (dispatch' s ev) evs.
Proof. reflexivity. Qed.

(** An event that does not close leaves the source open and calls no
    callback. *)
Lemma dispatch_nonclosing s ev :
  closed s = false -> closes ev = false ->
  closed (dispatch' s ev) = false /\
  navigations (dispatch' s ev) = navigations s.
Proof.
  intros Hopen Hev. unfold dispatch. rewrite Hopen.
  destruct ev as [[|c|]|]; simpl in *; try discriminate; auto.
  destruct (is_session_chunk c); simpl in *; auto.
  rewrite Hev. simpl. auto.
Qed.

Lemma dispatch_closing s ev :
  closed s = false -> closes ev = true -> closed (dispatch' s ev) = true.
Proof.
  intros Hopen Hev. unfold dispatch. rewrite Hopen.
  destruct ev as [[|c|]|]; simpl in *; try discriminate; auto.
  destruct (is_session_chunk c); simpl in *; [discriminate|].
  rewrite Hev. reflexivity.
Qed.

(** Only the [[DONE]] branch calls [onSessionCreated], with the id kept
    from a session chunk. *)
Lemma dispatch_navigates s ev :
  navigations (dispatch' s ev) = navigations s \/
  (ev = Message DoneMarker /\ closed s = false /\ onSessionCreated = true /\
   exists sid, newSessionId s = Some sid /\
               navigations (dispatch' s ev) = navigations s ++ [sid]).
Proof.
  unfold dispatch. destruct (closed s) eqn:Hopen; [auto|].
  destruct ev as [[|c|]|]; simpl; auto.
  - destruct (newSessionId s) as [sid|] eqn:Hsid; [|auto].
    destruct (truthy sid); simpl; [|auto].
    destruct onSessionCreated eqn:Hcb; [|auto].
    right. repeat split; auto. exists sid. auto.
  - destruct (is_session_chunk c); simpl; auto.
    destruct (truthy (c_error c)); simpl; auto.
Qed.

Lemma run_open_only s pre :
  closed s = false -> open_only pre = true ->
  closed (run' s pre) = false /\
  navigations (run' s pre) = navigations s.
Proof.
  revert s. induction pre as [|ev pre IH]; intros s Hopen Hpre; simpl.
  - auto.
  - simpl in Hpre. apply andb_true_iff in Hpre as (Hev & Hpre).
    apply negb_true_iff in Hev.
    destruct (dispatch_nonclosing s ev Hopen Hev) as (Hc & Hn).
    destruct (IH (dispatch' s ev) Hc Hpre) as (Hc' & Hn').
    split; [exact Hc' | congruence].
Qed.

(** The handlers see the events up to the first one that closes the
    source, and nothing after it. *)
Lemma handled_until_close s pre t post :
  closed s = false -> open_only pre = true -> closes t = true ->
  handled' s (pre ++ t :: post) = pre ++ [t].
Proof.
  revert s. induction pre as [|ev pre IH]; intros s Hopen Hpre Ht; simpl.
  - rewrite Hopen. f_equal.
    pose proof (dispatch_closing s t Hopen Ht) as Hc.
    destruct post; simpl; [reflexivity|]. rewrite Hc. reflexivity.
  - rewrite Hopen. f_equal.
    simpl in Hpre. apply andb_true_iff in Hpre as (Hev & Hpre).
    apply negb_true_iff in Hev.
    apply IH; [|assumption|assumption].
    apply dispatch_nonclosing; assumption.
Qed.

(** Every list of events splits at its first closing event, if it has
    one. *)
Lemma split_at_first_close (evs : list sse_event) :
  open_only evs = true \/
  exists pre t post,
    evs = pre ++ t :: post /\ open_only pre = true /\ closes t = true.
Proof.
  induction evs as [|ev evs IH]; [left; reflexivity|].
  destruct (closes ev) eqn:Hev.
  - right. exists [], ev, evs. auto.
  - destruct IH as [Hall | (pre & t & post & -> & Hpre & Ht)].
    + left. simpl. rewrite Hev. exact Hall.
    + right. exists (ev :: pre), t, post. simpl. rewrite Hev. auto.
Qed.

End ClientFacts.

Section SessionCallback.
Variable rev : revision.
Variable sessionId : option text.
Variable onSessionCreated : bool.
Variable assistantMessageId : text.

Local Abbreviation dispatch' :=
  (dispatch rev sessionId onSessionCreated assistantMessageId).
Local Abbreviation run' :=
  (run rev sessionId onSessionCreated assistantMessageId).

Lemma dispatch_kept_id_truthy s ev :
  kept_id_truthy s -> kept_id_truthy (dispatch' s ev).
Proof.
  intros Hinv. unfold dispatch. destruct (closed s); [exact Hinv|].
  destruct ev as [[|c|]|]; simpl; try exact Hinv.
  destruct (is_session_chunk c) eqn:Hsc; simpl.
  - unfold is_session_chunk in Hsc. apply andb_true_iff in Hsc as (_ & Ht).
    intros sid. simpl.
    destruct rev; [intros [= <-]; exact Ht|].
    destruct (no_session sessionId); [intros [= <-]; exact Ht | apply Hinv].
  - destruct (truthy (c_error c)); exact Hinv.
Qed.

Lemma run_kept_id_truthy s evs :
  kept_id_truthy s -> kept_id_truthy (run' s evs).
Proof.
  revert s. induction evs as [|ev evs IH]; intros s Hinv; simpl; [exact Hinv|].
  apply IH. apply dispatch_kept_id_truthy. exact Hinv.
Qed.

(** C10.  The client keeps the id of a session chunk and calls
    [onSessionCreated] only in the branch that handles the sentinel
    [[DONE]]:
    - no handler but the one of [[DONE]] calls the callback, and it
      passes the id that was kept;
    - handling the session chunk keeps the id, leaves the source open and
      calls nothing;
    - when the first closing event is an error chunk or a connection
      error, the callback is never called, whatever follows;
    - when it is [[DONE]] and an id was kept, the callback is called
      exactly once, with that id. *)
Theorem session_callback_only_on_done :
  (forall s ev,
      navigations (dispatch' s ev) = navigations s \/
      (ev = Message DoneMarker /\ closed s = false /\
       onSessionCreated = true /\
       exists sid, newSessionId s = Some sid /\
                   navigations (dispatch' s ev) = navigations s ++ [sid])) /\
  (forall s c,
      closed s = false -> is_session_chunk c = true ->
      rev = Rev1 \/ no_session sessionId = true ->
      newSessionId (dispatch' s (Message (Json c))) = Some (c_session_id c) /\
      closed (dispatch' s (Message (Json c))) = false /\
      navigations (dispatch' s (Message (Json c))) = navigations s) /\
  (forall msgs pre t post,
      open_only pre = true -> is_error_event t = true ->
      navigations (run' (initial_state msgs)
                     (pre ++ t :: post)) = []) /\
  (forall msgs pre post sid,
      open_only pre = true ->
      newSessionId (run' (initial_state msgs) pre)
        = Some sid ->
      onSessionCreated = true ->
      navigations (run' (initial_state msgs)
                     (pre ++ Message DoneMarker :: post)) = [sid]).
Proof.
  split; [|split; [|split]].
  - apply dispatch_navigates.
  - intros s c Hopen Hsc Hrev. unfold dispatch. rewrite Hopen. simpl.
    rewrite Hsc. simpl. repeat split; auto.
    destruct Hrev as [-> | Hno]; [reflexivity|].
    destruct rev; [reflexivity|]. rewrite Hno. reflexivity.
  - intros msgs pre t post Hpre Ht.
    unfold is_error_event in Ht. apply andb_true_iff in Ht as (Hcl & Hnd).
    apply negb_true_iff in Hnd.
    rewrite run_app, run_cons.
    destruct (run_open_only rev sessionId onSessionCreated assistantMessageId
                (initial_state msgs) pre eq_refl Hpre)
      as (Hopen & Hnav).
    rewrite run_closed
      by (apply dispatch_closing; assumption).
    destruct (dispatch_navigates rev sessionId onSessionCreated
                assistantMessageId
                (run' (initial_state msgs) pre) t)
      as [Hsame | (Heq & _)].
    + rewrite Hsame, Hnav. reflexivity.
    + subst t. discriminate.
  - intros msgs pre post sid Hpre Hsid Hcb.
    rewrite run_app, run_cons.
    destruct (run_open_only rev sessionId onSessionCreated assistantMessageId
                (initial_state msgs) pre eq_refl Hpre)
      as (Hopen & Hnav).
    assert (Ht : truthy sid = true).
    { apply (run_kept_id_truthy (initial_state msgs) pre);
        [intros x; discriminate | exact Hsid]. }
    rewrite run_closed
      by (apply dispatch_closing; [assumption | reflexivity]).
    unfold dispatch. rewrite Hopen. unfold onmessage, on_done.
    cbn [navigations]. rewrite Hsid, Ht, Hnav, Hcb. reflexivity.
Qed.

End SessionCallback.

(** A turn without session: the backend creates session "s1", the
    answer streams, and the callback gets "s1" when [[DONE]] arrives. *)
Lemma session_callback_only_on_done_witness :
  navigations
    (run Rev1 None true (lit "2") (initial_state [])
       (delivered (fst (generate None (lit "s1") greeting_stream))))
  = [lit "s1"].
Proof.
  refine (proj2 (proj2 (proj2
            (session_callback_only_on_done Rev1 None true (lit "2"))))
            []
            (delivered [Data (session_chunk (lit "s1"));
                        Data (text_chunk (lit "Xin "));
                        Data (text_chunk (lit "chào"))])
            [] (lit "s1") _ _ _).
  - vm_compute. reflexivity.
  - vm_compute. reflexivity.
  - reflexivity.
Defined.

(** ** Streaming transport *)

Lemma filter_is_done_data (cs : list chunk) :
  List.filter is_done (map Data cs) = [].
Proof. induction cs as [|c cs IH]; simpl; auto. Qed.

Lemma open_only_app (a b : list sse_event) :
  open_only (a ++ b) = open_only a && open_only b.
Proof. unfold open_only. apply forallb_app. Qed.

(** When the agent stream finishes, the generator yields exactly one
    [[DONE]], as its last frame. *)
Lemma generate_frames session_id new_session_id agent :
  raised agent = None ->
  fst (generate session_id new_session_id agent)
  = (if no_session session_id
     then [Data (session_chunk new_session_id)] else [])
    ++ map Data (chunks agent) ++ [DONE].
Proof. intros H. unfold generate. rewrite H. reflexivity. Qed.

(** When the agent stream raises, the generator ends with it: the
    frames yielded hold no [[DONE]]. *)
Lemma generate_aborted session_id new_session_id agent e :
  raised agent = Some e ->
  snd (generate session_id new_session_id agent) = Some e /\
  List.filter is_done (fst (generate session_id new_session_id agent)) = [].
Proof.
  intros H. unfold generate. rewrite H. split; [reflexivity|]. simpl.
  rewrite app_nil_r, List.filter_app, filter_is_done_data.
  destruct (no_session session_id); reflexivity.
Qed.




(** When the agent stream raises instead, no terminal frame is sent at
    all; the client then ends the turn in [onerror]. *)
Example raising_stream_has_no_terminal :
  generate None (lit "s1") raising_stream
  = ([Data (session_chunk (lit "s1")); Data (text_chunk (lit "Hel"))],
     Some (lit "model timeout")).
Proof. reflexivity. Qed.

(** ** Chat client: routing of email queries *)

Example email_query_matches :
  isEmailQuery (lit "  Check Email from Hoa") = true.
Proof. vm_compute. reflexivity. Qed.

Example email_query_vietnamese :
  isEmailQuery (lit "ĐỌC MAIL mới nhất") = true.
Proof. vm_compute. reflexivity. Qed.

Example email_query_needs_prefix :
  isEmailQuery (lit "please check email") = false.
Proof. vm_compute. reflexivity. Qed.

(** A message that matches the pattern is not blank. *)
Lemma email_query_not_blank (messageText : text) :
  isEmailQuery messageText = true -> truthy (js_trim messageText) = true.
Proof.
  unfold isEmailQuery. destruct (js_trim messageText) as [|c r]; [|reflexivity].
  vm_compute. intros H. exact H.
Qed.



(* ===================================================================== *)
(** * Further properties of the code                                      *)
(* ===================================================================== *)

(** ** Retry loop: how long a store operation can wait *)

Lemma list_sum_linear_from d a k :
  2 * list_sum (map (fun n => d * n) (seq a k)) + d * k
  = d * k * (2 * a + k).
Proof.
  revert a. induction k as [|k IH]; intros a; simpl; [nia|].
  specialize (IH (S a)). nia.
Qed.

Lemma retry_from_sleeps_shape {A} max_retries retry_delay
    (engine : nat -> outcome A) fuel attempt last :
  attempt + fuel = max_retries ->
  exists j, j <= fuel - 1 /\
    sleeps (snd (retry_from max_retries retry_delay engine fuel attempt last))
    = map (fun n => retry_delay * n) (seq (attempt + 1) j).
Proof.
  revert attempt last.
  induction fuel as [|fuel IH]; intros attempt last Hinv; simpl.
  - exists 0. split; [lia | reflexivity].
  - destruct (engine attempt) as [a|e]; simpl.
    + exists 0. split; [lia | reflexivity].
    + destruct (IH (S attempt) (Some e)) as (j & Hj & Hs); [lia|].
      destruct (retry_from max_retries retry_delay engine fuel (S attempt)
                  (Some e)) as [r rest]; simpl in *.
      unfold backoff.
      destruct (Nat.ltb_spec attempt (max_retries - 1)) as [Hlt|Hge]; simpl.
      * exists (S j). split; [lia|]. rewrite Hs. simpl.
        replace (S attempt + 1) with (S (attempt + 1)) by lia. reflexivity.
      * assert (fuel = 0) by lia. subst fuel. simpl in Hs.
        exists 0. split; [lia|]. rewrite Hs.
        assert (j = 0) by lia. subst j. reflexivity.
Qed.

(** X1.  Whatever the engine answers, the waits of one store operation
    are [retry_delay * 1, ..., retry_delay * j] for some [j] below
    [max_retries]: no wait follows the last attempt, no single wait is
    longer than [retry_delay * (max_retries - 1)], and the waits add up to
    at most [retry_delay * max_retries * (max_retries - 1) / 2] (1.5 s
    with the configured 3 attempts and 0.5 s; the 1.5 s wait the comment
    of the loop lists is never made). *)
Theorem retry_waits_are_bounded :
  forall (A : Type) (max_retries retry_delay : nat)
         (engine : nat -> outcome A),
    exists j, j <= max_retries - 1 /\
      sleeps (snd (with_retry max_retries retry_delay engine))
        = linear_backoff retry_delay j /\
      Forall (fun d => d <= retry_delay * (max_retries - 1))
        (sleeps (snd (with_retry max_retries retry_delay engine))) /\
      2 * list_sum (sleeps (snd (with_retry max_retries retry_delay engine)))
        <= retry_delay * max_retries * (max_retries - 1).
Proof.
  intros A max_retries retry_delay engine. unfold with_retry.
  destruct (retry_from_sleeps_shape max_retries retry_delay engine
              max_retries 0 None eq_refl) as (j & Hj & Hs).
  exists j. rewrite Hs. unfold linear_backoff. simpl.
  split; [exact Hj|]. split; [reflexivity|]. split.
  - apply List.Forall_forall. intros d Hd.
    apply in_map_iff in Hd as (n & <- & Hn).
    apply in_seq in Hn. apply Nat.mul_le_mono_l. lia.
  - pose proof (list_sum_linear_from retry_delay 1 j) as Hsum.
    assert (Hjj : j * (j + 1) <= max_retries * (max_retries - 1)).
    { destruct max_retries as [|m]; [assert (j = 0) by lia; subst; lia|].
      simpl in *. rewrite Nat.sub_0_r in *. nia. }
    nia.
Qed.

(** ** Agent: what the user can get back *)

Lemma decimal_nonempty z : decimal z <> [].
Proof.
  unfold decimal. destruct (Z.to_int z) as [u|u]; simpl.
  - destruct u; simpl; discriminate.
  - discriminate.
Qed.

Lemma error_response_nonempty e : error_response e <> [].
Proof.
  unfold error_response.
  destruct (py_in _ _); [vm_compute; discriminate|].
  destruct (py_in _ _); vm_compute; discriminate.
Qed.


(** X3.  The response built for an exception of the agent run is at most
    157 characters long, however long the exception text is: a fixed
    message, or the 7 characters of the prefix and at most 150 characters
    of the exception text. *)
Theorem error_response_is_short :
  forall e : text, length (error_response e) <= 157.
Proof.
  intros e. unfold error_response.
  destruct (py_in _ _); [vm_compute; lia|].
  destruct (py_in _ _); [vm_compute; lia|].
  rewrite length_app. pose proof (py_prefix_length 150 e).
  change (length (lit "❌ Lỗi: ")) with 7. lia.
Qed.



(** ** Context assembler: what the greeting classifier matches *)

Lemma starts_with_app (g b : text) : starts_with g (g ++ b) = true.
Proof.
  induction g as [|c g IH]; simpl; [reflexivity|].
  unfold starts_with in *. simpl. unfold cp_eqb at 1.
  rewrite N.eqb_refl. exact IH.
Qed.

Lemma py_in_head (g s : text) : starts_with g s = true -> py_in g s = true.
Proof. intros H. destruct s; simpl; rewrite H; reflexivity. Qed.

Lemma py_in_app (g a b : text) : py_in g (a ++ g ++ b) = true.
Proof.
  induction a as [|c a IH].
  - rewrite app_nil_l. apply py_in_head. apply starts_with_app.
  - rewrite <- app_comm_cons. cbn [py_in]. rewrite IH. apply orb_true_r.
Qed.

Lemma py_in_found (g : text) (gs : list text) (s : text) :
  In g gs -> py_in g s = true ->
  existsb (fun g => py_in g s) gs = true.
Proof.
  intros Hin Hg. apply existsb_exists. exists g. auto.
Qed.

(** X5.  The classifier looks for the greetings as substrings, in any
    letter case: every message shorter than 20 characters that contains
    one of them anywhere, also inside another word ("ok" in "Book a
    flight"), takes the fast path, and the memory store is not queried
    for it.  A message of 20 characters or more never takes it. *)
Theorem is_simple_matches_substrings :
  forall (D : Type) (query_memory : text -> nat -> list D)
         (memories0 : list D) (pre w post : text),
    In (py_lower w) simple_greetings ->
    (length (pre ++ w ++ post) < 20 ->
       is_simple (pre ++ w ++ post) = true /\
       recall query_memory memories0 (pre ++ w ++ post) = (memories0, [])) /\
    (20 <= length (pre ++ w ++ post) ->
       is_simple (pre ++ w ++ post) = false /\
       snd (recall query_memory memories0 (pre ++ w ++ post))
         = [QueryMemory (pre ++ w ++ post) 2]).
Proof.
  intros D query_memory memories0 pre w post Hw.
  assert (Hany : existsb (fun g => py_in g (py_lower (pre ++ w ++ post)))
                   simple_greetings = true).
  { apply (py_in_found (py_lower w)); [exact Hw|].
    unfold py_lower. rewrite !map_app. apply py_in_app. }
  split; intros Hlen.
  - assert (Hs : is_simple (pre ++ w ++ post) = true).
    { unfold is_simple. rewrite Hany. apply Nat.ltb_lt in Hlen.
      rewrite Hlen. reflexivity. }
    split; [exact Hs|]. unfold recall. rewrite Hs. reflexivity.
  - assert (Hs : is_simple (pre ++ w ++ post) = false).
    { unfold is_simple. rewrite Hany.
      apply Nat.ltb_ge in Hlen. rewrite Hlen. reflexivity. }
    split; [exact Hs|]. unfold recall. rewrite Hs. reflexivity.
Qed.

Lemma is_simple_matches_substrings_witness :
  is_simple (lit "Bo" ++ lit "OK" ++ lit " a flight") = true.
Proof.
  refine (proj1 (proj1 (is_simple_matches_substrings unit (fun _ _ => []) []
                          (lit "Bo") (lit "OK") (lit " a flight") _) _)).
  - vm_compute. do 4 right. left. reflexivity.
  - vm_compute. lia.
Defined.

(** ** Chat client: what a stream does to the message list *)

Import StreamNotions.

Ltac inv_done :=
  simpl; repeat split; auto; try (intros; discriminate); try lia.

Section StreamFacts.
Variable rev : revision.
Variable sessionId : option text.
Variable onSessionCreated : bool.
Variable assistantMessageId : text.

Local Abbreviation dispatch' :=
  (dispatch rev sessionId onSessionCreated assistantMessageId).
Local Abbreviation run' :=
  (run rev sessionId onSessionCreated assistantMessageId).
Local Abbreviation update' := (update_assistant assistantMessageId).

Lemma update_assistant_frame f (msgs tail : list ChatMessage) :
  no_id_clash assistantMessageId msgs ->
  Forall (fun m => id m = assistantMessageId /\ msg_role m = Assistant) tail ->
  update' f (msgs ++ tail) = msgs ++ map f tail.
Proof.
  intros Hclash Htail. unfold update_assistant. rewrite map_app. f_equal.
  - induction Hclash as [|m msgs Hm _ IH]; simpl; [reflexivity|].
    rewrite bool_decide_eq_false_2 by exact Hm. f_equal. exact IH.
  - induction Htail as [|m tail (Hm & _) _ IH]; simpl; [reflexivity|].
    rewrite bool_decide_eq_true_2 by exact Hm. f_equal. exact IH.
Qed.

Lemma Forall_assistant_map f (tail : list ChatMessage) :
  (forall m, id (f m) = id m /\ msg_role (f m) = msg_role m) ->
  Forall (fun m => id m = assistantMessageId /\ msg_role m = Assistant) tail ->
  Forall (fun m => id m = assistantMessageId /\ msg_role m = Assistant)
    (map f tail).
Proof.
  intros Hf Htail. induction Htail as [|m tail (Hi & Hr) _ IH]; simpl;
    constructor; auto.
  destruct (Hf m) as (-> & ->). auto.
Qed.

Lemma stream_inv_dispatch msgs s ev :
  no_id_clash assistantMessageId msgs ->
  stream_inv assistantMessageId msgs s ->
  stream_inv assistantMessageId msgs (dispatch' s ev).
Proof.
  intros Hclash (tail & Hm & Htail & Hlen & Hcreated & Hnone).
  unfold dispatch. destruct (closed s) eqn:Hopen;
    [exists tail; rewrite Hopen; auto|].
  assert (Hshape : forall f,
            (forall m, id (f m) = id m /\ msg_role (f m) = msg_role m) ->
            update' f (messages s) = msgs ++ map f tail /\
            Forall (fun m => id m = assistantMessageId /\ msg_role m = Assistant)
              (map f tail) /\
            length (map f tail) = length tail).
  { intros f Hf. rewrite Hm, update_assistant_frame by assumption.
    split; [reflexivity|]. split; [apply Forall_assistant_map; assumption|].
    apply length_map. }
  assert (Hnew : forall m, messageCreated s = false ->
            id m = assistantMessageId -> msg_role m = Assistant ->
            messages s ++ [m] = msgs ++ [m] /\
            Forall (fun m => id m = assistantMessageId /\ msg_role m = Assistant)
              [m]).
  { intros m Hc Hi Hr. rewrite Hm, (Hnone Hc eq_refl), app_nil_r. auto. }
  destruct ev as [[|c|]|]; simpl.
  - exists tail. inv_done.
  - destruct (is_session_chunk c); simpl.
    + exists tail. inv_done.
    + destruct (truthy (c_error c)); simpl.
      * unfold on_error_chunk, stream_inv. simpl.
        destruct (messageCreated s) eqn:Hc; simpl.
        -- destruct (Hshape (set_content (lit "Lỗi: " ++ c_error c)))
             as (Hu & Hf & Hl); [intros m; split; reflexivity|].
           eexists. split; [exact Hu|].
           split; [exact Hf|]. rewrite Hl. inv_done.
        -- destruct (Hnew (set_content (lit "Lỗi: " ++ c_error c)
                             (assistantMessage assistantMessageId)))
             as (Hu & Hf); auto.
           eexists. split; [exact Hu|].
           split; [exact Hf|]. inv_done.
      * unfold on_content, stream_inv. simpl.
        destruct (messageCreated s) eqn:Hc; simpl.
        -- match goal with
           | |- context [update_assistant _ ?f _] =>
               destruct (Hshape f) as (Hu & Hf & Hl);
                 [intros m; split; reflexivity|]
           end.
           eexists. split; [exact Hu|]. split; [exact Hf|].
           rewrite Hl. inv_done.
        -- match goal with
           | |- context [if truthy ?x then _ else _] =>
               destruct (truthy x) eqn:Ht
           end.
           ++ match goal with
              | |- context [messages s ++ [?m]] =>
                  destruct (Hnew m) as (Hu & Hf); auto
              end.
              eexists. split; [exact Hu|]. split; [exact Hf|].
              inv_done.
           ++ exists tail. inv_done.
  - exists tail. rewrite Hopen. inv_done.
  - unfold onerror, stream_inv. simpl.
    destruct (messageCreated s) eqn:Hc; simpl.
    + destruct (truthy (accumulatedContent s)); simpl.
      * exists tail. inv_done.
      * destruct (Hshape (set_content
                   (lit "Không thể kết nối đến server. Vui lòng thử lại.")))
          as (Hu & Hf & Hl); [intros m; split; reflexivity|].
        eexists. split; [exact Hu|].
        split; [exact Hf|]. rewrite Hl. inv_done.
    + destruct (Hnew (set_content
                  (lit "Không thể kết nối đến server. Vui lòng thử lại.")
                  (assistantMessage assistantMessageId)))
        as (Hu & Hf); auto.
      eexists. split; [exact Hu|].
      split; [exact Hf|]. inv_done.
Qed.

End StreamFacts.

Section StreamRuns.
Variable rev : revision.
Variable sessionId : option text.
Variable onSessionCreated : bool.
Variable assistantMessageId : text.

Local Abbreviation dispatch' :=
  (dispatch rev sessionId onSessionCreated assistantMessageId).
Local Abbreviation run' :=
  (run rev sessionId onSessionCreated assistantMessageId).

Lemma stream_inv_run msgs s evs :
  no_id_clash assistantMessageId msgs ->
  stream_inv assistantMessageId msgs s ->
  stream_inv assistantMessageId msgs (run' s evs).
Proof.
  intros Hclash. revert s.
  induction evs as [|ev evs IH]; intros s Hinv; simpl; [exact Hinv|].
  apply IH. apply stream_inv_dispatch; assumption.
Qed.

Lemma stream_inv_initial msgs :
  stream_inv assistantMessageId msgs (initial_state msgs).
Proof.
  exists []. simpl. rewrite app_nil_r. repeat split; auto. intros [=].
Qed.

(** X6.  When no earlier message carries the id of the assistant message
    of the turn, a stream never touches the earlier messages and adds at
    most one message, the assistant message of the turn, whatever events
    arrive and in whatever order. *)
Theorem stream_adds_at_most_one_message :
  forall (msgs : list ChatMessage) (evs : list sse_event),
    no_id_clash assistantMessageId msgs ->
    exists tail,
      messages (run' (initial_state msgs) evs) = msgs ++ tail /\
      length tail <= 1 /\
      Forall (fun m => id m = assistantMessageId /\ msg_role m = Assistant)
        tail.
Proof.
  intros msgs evs Hclash.
  destruct (stream_inv_run msgs (initial_state msgs) evs Hclash
              (stream_inv_initial msgs))
    as (tail & Hm & Htail & Hlen & _).
  exists tail. auto.
Qed.

Lemma loading_iff_open_dispatch s ev :
  isLoading s = negb (closed s) ->
  isLoading (dispatch' s ev) = negb (closed (dispatch' s ev)).
Proof.
  intros Hinv. unfold dispatch.
  destruct (closed s) eqn:Hopen; [rewrite Hopen; exact Hinv|].
  destruct ev as [[|c|]|]; simpl; rewrite ?Hopen; auto.
  destruct (is_session_chunk c); simpl; rewrite ?Hopen; auto.
  destruct (truthy (c_error c)); simpl; rewrite ?Hopen; auto.
Qed.

(** X7.  The loading flag is set exactly while the event source is open:
    it is cleared by the event that closes the source ([[DONE]], an error
    chunk or a connection error) and by nothing else, and once the source
    is closed no later event changes the state of the turn. *)
Theorem loading_flag_follows_the_stream :
  forall (msgs : list ChatMessage) (evs : list sse_event),
    isLoading (run' (initial_state msgs) evs)
      = negb (closed (run' (initial_state msgs) evs)) /\
    (forall more,
        closed (run' (initial_state msgs) evs) = true ->
        run' (initial_state msgs) (evs ++ more)
          = run' (initial_state msgs) evs).
Proof.
  intros msgs evs. split.
  - assert (H : forall s, isLoading s = negb (closed s) ->
              isLoading (run' s evs) = negb (closed (run' s evs))).
    { induction evs as [|ev evs' IH]; intros s Hs; simpl; [exact Hs|].
      apply IH. apply loading_iff_open_dispatch. exact Hs. }
    apply H. reflexivity.
  - intros more Hclosed. rewrite run_app. apply run_closed. exact Hclosed.
Qed.

End StreamRuns.

Lemma stream_adds_at_most_one_message_witness :
  exists tail,
    messages (run Rev1 None true (lit "2")
                (initial_state [plain_message (lit "1") User (lit "hi")])
                (delivered (fst (generate None (lit "s1") failing_stream))))
      = [plain_message (lit "1") User (lit "hi")] ++ tail /\
    length tail <= 1 /\
    Forall (fun m => id m = lit "2" /\ msg_role m = Assistant) tail.
Proof.
  apply (stream_adds_at_most_one_message Rev1 None true (lit "2")).
  constructor; [|constructor]. vm_compute. discriminate.
Defined.

Lemma loading_flag_follows_the_stream_witness :
  run Rev1 None true (lit "2") (initial_state [])
    ([Message (Json (error_chunk (lit "model timeout")))]
       ++ [Message DoneMarker])
  = run Rev1 None true (lit "2") (initial_state [])
      [Message (Json (error_chunk (lit "model timeout")))].
Proof.
  apply (proj2 (loading_flag_follows_the_stream Rev1 None true (lit "2") []
                  [Message (Json (error_chunk (lit "model timeout")))])).
  vm_compute. reflexivity.
Defined.

Lemma text_is_not_session_type : bool_decide (lit "text" = lit "session_id") = false.
Proof. vm_compute. reflexivity. Qed.

Lemma text_is_text_type : bool_decide (lit "text" = lit "text") = true.
Proof. vm_compute. reflexivity. Qed.

Lemma text_is_not_tool_type : bool_decide (lit "text" = lit "tool") = false.
Proof. vm_compute. reflexivity. Qed.

Lemma text_is_not_done_type : bool_decide (lit "text" = lit "done") = false.
Proof. vm_compute. reflexivity. Qed.

Lemma truthy_nonempty (c : text) : c <> [] -> truthy c = true.
Proof. destruct c; [contradiction | reflexivity]. Qed.

Lemma truthy_app_l (a c : text) : truthy a = true -> truthy (a ++ c) = true.
Proof. destruct a; [discriminate | reflexivity]. Qed.

Section TextStream.
Variable rev : revision.
Variable sessionId : option text.
Variable onSessionCreated : bool.
Variable assistantMessageId : text.

Local Abbreviation dispatch' :=
  (dispatch rev sessionId onSessionCreated assistantMessageId).
Local Abbreviation run' :=
  (run rev sessionId onSessionCreated assistantMessageId).
Local Abbreviation streaming' :=
  (streaming_state rev assistantMessageId).
Local Abbreviation streamed' := (streamed_message rev assistantMessageId).

Lemma streamed_message_is_assistant shown :
  Forall (fun m => id m = assistantMessageId /\ msg_role m = Assistant)
    [streamed' shown].
Proof. constructor; [split; reflexivity | constructor]. Qed.

(** The first piece of text creates the assistant message. *)
Lemma first_text_chunk msgs c :
  c <> [] ->
  dispatch' (initial_state msgs) (Message (Json (text_chunk c)))
  = streaming' msgs c.
Proof.
  intros Hc. destruct c as [|x c]; [contradiction|].
  unfold dispatch, onmessage, is_session_chunk, on_content.
  cbn [closed initial_state c_type c_session_id c_error c_content c_name
       c_full_response c_tools_used c_thinking c_debug_info text_chunk
       accumulatedContent accumulatedTools accumulatedThinking
       accumulatedDebugInfo messageCreated newSessionId messages navigations
       isLoading truthy andb negb orb default app].
  rewrite text_is_not_session_type, text_is_text_type, text_is_not_tool_type,
    text_is_not_done_type.
  cbn [andb negb orb truthy app]. unfold streaming_state, streamed_message,
    assistantMessage. cbn [id msg_role debugInfo].
  destruct rev; reflexivity.
Qed.

(** A further piece of text is appended to what is shown. *)
Lemma next_text_chunk msgs shown c :
  no_id_clash assistantMessageId msgs -> c <> [] ->
  dispatch' (streaming' msgs shown) (Message (Json (text_chunk c)))
  = streaming' msgs (shown ++ c).
Proof.
  intros Hclash Hc. destruct c as [|x c]; [contradiction|].
  unfold dispatch, onmessage, is_session_chunk, on_content.
  cbn [closed streaming_state c_type c_session_id c_error c_content c_name
       c_full_response c_tools_used c_thinking c_debug_info text_chunk
       accumulatedContent accumulatedTools accumulatedThinking
       accumulatedDebugInfo messageCreated newSessionId messages navigations
       isLoading truthy andb negb orb default].
  rewrite text_is_not_session_type, text_is_text_type, text_is_not_tool_type,
    text_is_not_done_type.
  cbn [andb negb orb truthy].
  rewrite update_assistant_frame
    by (try exact Hclash; apply streamed_message_is_assistant).
  unfold streaming_state, streamed_message. cbn [map id msg_role debugInfo].
  destruct rev; reflexivity.
Qed.

Lemma text_chunks_from msgs shown cs :
  no_id_clash assistantMessageId msgs ->
  Forall (fun c => c <> []) cs ->
  run' (streaming' msgs shown) (text_events cs)
  = streaming' msgs (shown ++ concat cs).
Proof.
  intros Hclash Hcs. revert shown.
  induction Hcs as [|c cs Hc _ IH]; intros shown; simpl.
  - rewrite app_nil_r. reflexivity.
  - rewrite next_text_chunk by assumption. rewrite IH, app_assoc.
    reflexivity.
Qed.

Lemma text_chunks_run :
  forall (msgs : list ChatMessage) (c : text) (cs : list text),
    no_id_clash assistantMessageId msgs ->
    Forall (fun c => c <> []) (c :: cs) ->
    run' (initial_state msgs) (text_events (c :: cs))
    = streaming' msgs (concat (c :: cs)).
Proof.
  intros msgs c cs Hclash Hall.
  inversion Hall as [|c' cs' Hc Hcs]; subst. simpl.
  rewrite first_text_chunk by assumption.
  apply text_chunks_from; assumption.
Qed.

(** X8.  A stream of text chunks builds the answer piece by piece: after
    the chunks [c1, ..., cn] (none empty, [n >= 1]) the source is still
    open and the message list is the earlier messages followed by one
    assistant message whose content is [c1 ++ ... ++ cn]. *)
Theorem text_chunks_accumulate :
  forall (msgs : list ChatMessage) (c : text) (cs : list text),
    no_id_clash assistantMessageId msgs ->
    Forall (fun c => c <> []) (c :: cs) ->
    run' (initial_state msgs) (text_events (c :: cs))
    = streaming' msgs (concat (c :: cs)) /\
    messages (run' (initial_state msgs) (text_events (c :: cs)))
    = msgs ++ [streamed' (concat (c :: cs))].
Proof.
  intros msgs c cs Hclash Hall.
  pose proof (text_chunks_run msgs c cs Hclash Hall) as Hrun.
  split; [exact Hrun|]. rewrite Hrun. reflexivity.
Qed.


End TextStream.

Lemma text_chunks_accumulate_witness :
  messages (run Rev1 None true (lit "2")
              (initial_state [plain_message (lit "1") User (lit "hi")])
              (text_events [lit "Xin "; lit "chào"]))
  = [plain_message (lit "1") User (lit "hi")]
    ++ [streamed_message Rev1 (lit "2") (lit "Xin chào")].
Proof.
  refine (proj2 (text_chunks_accumulate Rev1 None true (lit "2")
                   [plain_message (lit "1") User (lit "hi")]
                   (lit "Xin ") [lit "chào"] _ _)).
  - constructor; [|constructor]. vm_compute. discriminate.
  - repeat constructor; vm_compute; discriminate.
Defined.


(** ** Chat client: what happens when the direct email call fails *)

(** X10.  For an email query, only a response that is not [ok] sends the
    message on to the stream.  When the call itself fails (the fetch
    rejects) or an [ok] response has a body that does not parse, the
    turn ends in the outer handler: the user gets the general error
    message, loading is switched off, and no event source is opened. *)
Theorem email_call_failure_does_not_stream :
  forall (sessionId : option text) (user_id assistant_id messageText : text)
         (emails : emails_response),
    isEmailQuery messageText = true ->
    emails = FetchRejected \/ emails = Response true None ->
    let res := sendMessage sessionId false user_id assistant_id
                 messageText emails in
    fst res = OuterError /\
    existsb opens_stream (snd res) = false /\
    List.last (snd res) ConsoleError = SetIsLoading false /\
    In (AppendMessage (plain_message assistant_id Assistant
                         (lit "Có lỗi xảy ra. Vui lòng thử lại.")))
       (snd res).
Proof.
  intros sessionId user_id assistant_id messageText emails Hq Hfail.
  cbv zeta. unfold sendMessage.
  rewrite (email_query_not_blank _ Hq), Hq. cbn [negb orb].
  destruct Hfail as [-> | ->]; cbn [fst snd];
    (split; [reflexivity|]); (split; [vm_compute; reflexivity|]);
    (split; [vm_compute; reflexivity|]);
    apply in_or_app; right; right; right; left; reflexivity.
Qed.

Lemma email_call_failure_does_not_stream_witness :
  fst (sendMessage None false (lit "1") (lit "2") (lit "mail")
         FetchRejected) = OuterError.
Proof.
  refine (proj1 (email_call_failure_does_not_stream None (lit "1") (lit "2")
                   (lit "mail") FetchRejected _ _)).
  - vm_compute. reflexivity.
  - left. reflexivity.
Defined.

(** ** Email views *)

Import EmailViews.

Lemma js_trim_start_keeps (x : N) (s : text) :
  js_is_space x = false -> js_trim_start (x :: s) = x :: s.
Proof. intros H. simpl. rewrite H. reflexivity. Qed.

Lemma js_trim_keeps (x y : N) (s : text) :
  js_is_space x = false -> js_is_space y = false ->
  js_trim (x :: s ++ [y]) = x :: s ++ [y].
Proof.
  intros Hx Hy. unfold js_trim, js_trim_end.
  rewrite js_trim_start_keeps by exact Hx.
  replace (rev (x :: s ++ [y])) with (y :: rev (x :: s)).
  - rewrite js_trim_start_keeps by exact Hy.
    change (y :: rev (x :: s)) with ([y] ++ rev (x :: s)).
    rewrite rev_app_distr, rev_involutive. simpl.
    rewrite app_comm_cons. reflexivity.
  - rewrite app_comm_cons, rev_app_distr. reflexivity.
Qed.

Lemma view_message_shape subject :
  exists s, view_message subject = 116%N :: s ++ [34%N].
Proof.
  unfold view_message.
  remember (skipn 1 (lit "tôi muốn xem email ")) as t eqn:Ht.
  assert (Hlit : lit "tôi muốn xem email " = 116%N :: t)
    by (subst t; vm_compute; reflexivity).
  rewrite Hlit. exists (t ++ [34%N] ++ subject).
  rewrite <- app_comm_cons. f_equal. rewrite <- !app_assoc. reflexivity.
Qed.

Lemma view_message_trimmed subject :
  js_trim (view_message subject) = view_message subject.
Proof.
  destruct (view_message_shape subject) as (s & ->).
  apply js_trim_keeps; vm_compute; reflexivity.
Qed.

Lemma view_message_is_not_an_email_query subject :
  isEmailQuery (view_message subject) = false.
Proof.
  unfold isEmailQuery. rewrite view_message_trimmed.
  destruct (view_message_shape subject) as (s & ->).
  vm_compute. reflexivity.
Qed.


Lemma replace_char_flat_map c rep (f : N -> text) (s : text) :
  replace_char c rep (flat_map f s)
  = flat_map (fun x => replace_char c rep (f x)) s.
Proof.
  unfold replace_char. induction s as [|x s IH]; simpl; [reflexivity|].
  rewrite flat_map_app, IH. reflexivity.
Qed.

Lemma replace_char_single c rep x :
  replace_char c rep [x] = if (x =? c)%N then rep else [x].
Proof. unfold replace_char. simpl. apply app_nil_r. Qed.

Lemma five_passes_on_one_char x :
  replace_char 39 (lit "&#039;")
    (replace_char 34 (lit "&quot;")
       (replace_char 62 (lit "&gt;")
          (replace_char 60 (lit "&lt;")
             (if (x =? 38)%N then lit "&amp;" else [x]))))
  = escape_char x.
Proof.
  unfold escape_char.
  destruct (x =? 38)%N; [vm_compute; reflexivity|].
  rewrite replace_char_single.
  destruct (x =? 60)%N; [vm_compute; reflexivity|].
  rewrite replace_char_single.
  destruct (x =? 62)%N; [vm_compute; reflexivity|].
  rewrite replace_char_single.
  destruct (x =? 34)%N; [vm_compute; reflexivity|].
  rewrite replace_char_single. reflexivity.
Qed.

Lemma escape_char_has_no_markup x :
  Forall (fun y => is_markup_char y = false) (escape_char x).
Proof.
  unfold escape_char.
  destruct (x =? 38)%N; [vm_compute; repeat constructor|].
  destruct (x =? 60)%N eqn:E1; [vm_compute; repeat constructor|].
  destruct (x =? 62)%N eqn:E2; [vm_compute; repeat constructor|].
  destruct (x =? 34)%N eqn:E3; [vm_compute; repeat constructor|].
  destruct (x =? 39)%N eqn:E4; [vm_compute; repeat constructor|].
  constructor; [|constructor]. unfold is_markup_char.
  rewrite E1, E2, E3, E4. reflexivity.
Qed.

(** X12.  The five replacements of [sanitizeText] amount to escaping
    every character once: because the ampersand is replaced first, the
    ampersands of the entities written by the later replacements are not
    escaped again.  The result holds no [<], no [>] and no quote
    character. *)
Theorem sanitizeText_escapes_each_character_once :
  forall t : text,
    sanitizeText t = flat_map escape_char t /\
    Forall (fun y => is_markup_char y = false) (sanitizeText t).
Proof.
  intros t.
  assert (Heq : sanitizeText t = flat_map escape_char t).
  { unfold sanitizeText. unfold replace_char at 5.
    rewrite !replace_char_flat_map.
    apply flat_map_ext. intros x. apply five_passes_on_one_char. }
  split; [exact Heq|]. rewrite Heq. clear Heq.
  induction t as [|x t IH]; simpl; [constructor|].
  apply List.Forall_app. split; [apply escape_char_has_no_markup | exact IH].
Qed.

(** *** Avatar colours *)

Local Open Scope Z_scope.

Lemma to_int32_range z : - 2 ^ 31 <= to_int32 z < 2 ^ 31.
Proof.
  unfold to_int32.
  pose proof (Z.mod_pos_bound (z + 2 ^ 31) (2 ^ 32) ltac:(lia)). lia.
Qed.

Lemma hash_step_bound h c :
  (c < 65536)%N ->
  Z.abs (hash_step h c) <= Z.abs h + (2 ^ 31 + 65535).
Proof.
  intros Hc. unfold hash_step, shl5.
  pose proof (to_int32_range (to_int32 h * 32)). lia.
Qed.

Lemma sender_hash_bound_from (sender : text) h :
  code_units sender ->
  Z.abs (fold_left hash_step sender h)
  <= Z.abs h + Z.of_nat (length sender) * (2 ^ 31 + 65535).
Proof.
  intros Hcu. revert h.
  induction Hcu as [|c sender Hc _ IH]; intros h; simpl fold_left.
  - simpl. lia.
  - specialize (IH (hash_step h c)).
    pose proof (hash_step_bound h c Hc).
    rewrite length_cons, Nat2Z.inj_succ. lia.
Qed.

(** X13.  For a sender of at most 2^21 UTF-16 code units, every value
    the hash takes while the characters are folded in stays below 2^53
    in absolute value, so the additions and subtractions of the loop are
    exact on JavaScript numbers; and the colour index is always inside
    [COLORS], so an avatar always gets one of the six colours. *)
Theorem avatar_hash_is_exact_and_in_range :
  forall sender : text,
    code_units sender ->
    Z.of_nat (length sender) <= 2 ^ 21 ->
    (forall n, Z.abs (sender_hash (firstn n sender)) < 2 ^ 53) /\
    exists colour, getAvatarColor sender = Some colour /\ In colour COLORS.
Proof.
  intros sender Hcu Hlen. split.
  - intros n. unfold sender_hash.
    assert (Hp : code_units (firstn n sender)).
    { unfold code_units in *. apply Forall_take. exact Hcu. }
    pose proof (sender_hash_bound_from (firstn n sender) 0 Hp) as Hb.
    assert (Hl : Z.of_nat (length (firstn n sender)) <= 2 ^ 21).
    { rewrite length_firstn. lia. }
    change (2 ^ 21) with 2097152 in Hl.
    change (Z.abs 0) with 0 in Hb.
    change (2 ^ 31 + 65535) with 2147549183 in Hb.
    change (2 ^ 53) with 9007199254740992. nia.
  - unfold getAvatarColor.
    pose proof (Z.mod_pos_bound (Z.abs (sender_hash sender)) 6 ltac:(lia))
      as Hm.
    destruct (nth_error COLORS (Z.to_nat (Z.abs (sender_hash sender) mod 6)))
      as [colour|] eqn:Hnth.
    + exists colour. split; [reflexivity|].
      eapply nth_error_In. exact Hnth.
    + apply nth_error_None in Hnth.
      change (length COLORS) with 6%nat in Hnth. lia.
Qed.

Local Close Scope Z_scope.

Lemma avatar_hash_is_exact_and_in_range_witness :
  exists colour,
    getAvatarColor (lit "Hoa Nguyen") = Some colour /\ In colour COLORS.
Proof.
  refine (proj2 (avatar_hash_is_exact_and_in_range (lit "Hoa Nguyen") _ _)).
  - unfold code_units. vm_compute. repeat constructor.
  - vm_compute. discriminate.
Defined.

(** *** Links *)

(** X14.  A link whose text is a URL is never shown with more than 50
    characters: a longer one is cut to its first 47 characters and three
    dots.  Texts of up to 50 characters, and texts that do not start
    with "http", are shown as they are; in every case the first 47
    characters shown are those of the text. *)
Theorem link_display_is_bounded :
  forall children : text,
    (starts_with (lit "http") children = true ->
       length (link_display children) <= 50) /\
    (length children <= 50 -> link_display children = children) /\
    (starts_with (lit "http") children = false ->
       link_display children = children) /\
    firstn 47 (link_display children) = firstn 47 children.
Proof.
  intros children. unfold link_display.
  destruct (starts_with (lit "http") children) eqn:Hhttp;
    destruct (Nat.ltb_spec 50 (length children)) as [Hlong|Hshort];
    cbn [andb]; repeat split; try reflexivity; try discriminate; try lia.
  - intros _. rewrite length_app, length_firstn.
    change (length (lit "...")) with 3. lia.
  - rewrite firstn_app, length_firstn.
    replace (47 - Nat.min 47 (length children)) with 0 by lia.
    rewrite firstn_firstn. simpl. rewrite app_nil_r. reflexivity.
Qed.

Lemma link_display_is_bounded_witness :
  length (link_display
            (lit "https://example.com/a/very/long/path/to/some/resource/index.html"))
  <= 50.
Proof.
  refine (proj1 (link_display_is_bounded _) _).
  vm_compute. reflexivity.
Defined.

(** ** Session list *)

Import SessionStore.

(** X15.  [deleteSession] returns [true] exactly when the server
    answered [ok].  In that case the list holds the sessions with another
    id, all of them and in their old order, and none with the deleted id;
    deleting the same id again changes nothing.  When the request fails
    the list is left as it is. *)
Theorem deleteSession_removes_exactly_that_session :
  forall (sessions : list ChatSession) (id : text) (resp : delete_response),
    snd (deleteSession sessions id resp)
      = match resp with DeleteResponse true => true | _ => false end /\
    (snd (deleteSession sessions id resp) = false ->
       fst (deleteSession sessions id resp) = sessions) /\
    (snd (deleteSession sessions id resp) = true ->
       (forall s, In s (fst (deleteSession sessions id resp)) <->
                  In s sessions /\ session_id s <> id) /\
       sublist (fst (deleteSession sessions id resp)) sessions /\
       deleteSession (fst (deleteSession sessions id resp)) id resp
         = deleteSession sessions id resp).
Proof.
  intros sessions id resp. split; [destruct resp as [|[|]]; reflexivity|].
  split; [destruct resp as [|[|]]; simpl; intros H; congruence|].
  destruct resp as [|[|]]; simpl; try discriminate. intros _.
  split; [|split].
  - intros s. rewrite filter_In, negb_true_iff, bool_decide_eq_false.
    reflexivity.
  - induction sessions as [|s l IH]; simpl; [constructor|].
    destruct (negb (bool_decide (session_id s = id)));
      [apply sublist_skip | apply sublist_cons]; exact IH.
  - f_equal. induction sessions as [|s l IH]; simpl; [reflexivity|].
    destruct (negb (bool_decide (session_id s = id))) eqn:Hk; simpl;
      [rewrite Hk; f_equal|]; exact IH.
Qed.
Lemma deleteSession_removes_exactly_that_session_witness :
  deleteSession
    (fst (deleteSession
            [ {| session_id := lit "a"; title := lit "first";
                 created_at := lit "2025-12-08"; message_count := 2 |};
              {| session_id := lit "b"; title := lit "second";
                 created_at := lit "2025-12-09"; message_count := 0 |} ]
            (lit "a") (DeleteResponse true)))
    (lit "a") (DeleteResponse true)
  = deleteSession
      [ {| session_id := lit "a"; title := lit "first";
           created_at := lit "2025-12-08"; message_count := 2 |};
        {| session_id := lit "b"; title := lit "second";
           created_at := lit "2025-12-09"; message_count := 0 |} ]
      (lit "a") (DeleteResponse true).
Proof.
  refine (proj2 (proj2 (proj2 (proj2
    (deleteSession_removes_exactly_that_session _ _ _)) _))).
  vm_compute. reflexivity.
Defined.

(** ** Singletons of the backend *)

Import Singletons.

Section ChromaClientFacts.
Variable client : Type.

Lemma client_calls_cached :
  forall (envs : list (client_env client)) (c : client),
    Forall (fun r => r = (Ok c, [ClientLockAcquire; ClientLockRelease]))
           (fst (client_calls client (Some c) envs)) /\
    snd (client_calls client (Some c) envs) = Some c.
Proof.
  induction envs as [|env rest IH]; intros c; simpl.
  - split; [constructor | reflexivity].
  - specialize (IH c).
    destruct (client_calls client (Some c) rest) as [rs final].
    simpl in *. destruct IH as [IH1 IH2].
    split; [constructor; [reflexivity | exact IH1] | exact IH2].
Qed.

Lemma get_chroma_client_keeps_result :
  forall (st : option client) (env : client_env client) (c : client),
    fst (fst (get_chroma_client client st env)) = Ok c ->
    snd (fst (get_chroma_client client st env)) = Some c.
Proof.
  intros st env c. unfold get_chroma_client.
  destruct st as [c0|]; simpl; [congruence|].
  destruct (makedirs_raises env); simpl; [discriminate|].
  destruct (open_client env); simpl; congruence.
Qed.

Lemma get_chroma_client_locks :
  forall (st : option client) (env : client_env client),
    exists mid,
      snd (get_chroma_client client st env)
        = ClientLockAcquire :: mid ++ [ClientLockRelease] /\
      ~ In ClientLockAcquire mid /\ ~ In ClientLockRelease mid.
Proof.
  intros st env. unfold get_chroma_client.
  destruct st as [c0|]; simpl.
  - exists []. simpl. tauto.
  - destruct (makedirs_raises env); simpl.
    + exists [Makedirs]. simpl. intuition discriminate.
    + destruct (open_client env); simpl;
        exists [Makedirs; OpenPersistentClient]; simpl;
        intuition discriminate.
Qed.

(** X16.  However the file system and ChromaDB behave, over any sequence
    of calls of [get_chroma_client]: once a call has returned a client,
    every later call returns that same client, and does so without
    touching the directory or opening a client again; and every call,
    also one that raises, takes the lock first and releases it last,
    once each. *)
Theorem chroma_client_is_opened_once :
  forall (st : option client) (envs : list (client_env client)),
    (forall i j c ev r,
       i < j ->
       fst (client_calls client st envs) !! i = Some (Ok c, ev) ->
       fst (client_calls client st envs) !! j = Some r ->
       r = (Ok c, [ClientLockAcquire; ClientLockRelease])) /\
    Forall (fun r => exists mid,
              snd r = ClientLockAcquire :: mid ++ [ClientLockRelease] /\
              ~ In ClientLockAcquire mid /\ ~ In ClientLockRelease mid)
           (fst (client_calls client st envs)).
Proof.
  intros st envs. revert st.
  induction envs as [|env rest IH]; intros st; simpl.
  - split; [intros i j c ev r _ H; destruct i; discriminate | constructor].
  - pose proof (get_chroma_client_keeps_result st env) as Hkeep.
    pose proof (get_chroma_client_locks st env) as Hlock.
    destruct (get_chroma_client client st env) as [[r0 st'] ev0].
    simpl in Hkeep, Hlock.
    pose proof (client_calls_cached rest) as Hcached.
    specialize (IH st').
    destruct (client_calls client st' rest) as [rs final] eqn:Hrest.
    simpl in *. destruct IH as [IH1 IH2]. split.
    + intros i j c ev r Hij Hi Hj.
      destruct j as [|j]; [lia|]. simpl in Hj.
      destruct i as [|i]; simpl in Hi.
      * injection Hi as Hr0 Hev. subst r0.
        rewrite (Hkeep c eq_refl) in Hrest.
        destruct (Hcached c) as [Hall _]. rewrite Hrest in Hall.
        simpl in Hall. rewrite Forall_lookup in Hall.
        exact (Hall j r Hj).
      * apply (IH1 i j c ev r); [lia | exact Hi | exact Hj].
    + constructor; [exact Hlock | exact IH2].
Qed.

End ChromaClientFacts.

Lemma chroma_client_is_opened_once_witness :
  1 < 2 /\
  fst (client_calls nat None
         [ {| makedirs_raises := Some (lit "Permission denied");
              open_client := Ok 1 |};
           {| makedirs_raises := None; open_client := Ok 2 |};
           {| makedirs_raises := None; open_client := Ok 3 |} ]) !! 1
    = Some (Ok 2, [ClientLockAcquire; Makedirs; OpenPersistentClient;
                   ClientLockRelease]) /\
  exists r,
    fst (client_calls nat None
           [ {| makedirs_raises := Some (lit "Permission denied");
                open_client := Ok 1 |};
             {| makedirs_raises := None; open_client := Ok 2 |};
             {| makedirs_raises := None; open_client := Ok 3 |} ]) !! 2
      = Some r /\
    r = (Ok 2, [ClientLockAcquire; ClientLockRelease]).
Proof.
  split; [lia|]. split; [reflexivity|].
  eexists. split; [reflexivity|].
  refine (proj1 (chroma_client_is_opened_once nat None
                   [ {| makedirs_raises := Some (lit "Permission denied");
                        open_client := Ok 1 |};
                     {| makedirs_raises := None; open_client := Ok 2 |};
                     {| makedirs_raises := None; open_client := Ok 3 |} ])
                1 2 2 _ _ _ _ _); [lia | reflexivity | reflexivity].
Defined.

Section AgentCacheFacts.
Variable llm agent : Type.

Lemma agent_calls_cached :
  forall (envs : list (agent_env llm agent)) (g : agent_globals llm agent)
         (a : agent),
    _agent g = Some a ->
    Forall (fun r => r = (Ok a, [])) (fst (agent_calls llm agent g envs)).
Proof.
  induction envs as [|env rest IH]; intros g a Ha; simpl.
  - constructor.
  - unfold get_or_create_agent. rewrite Ha.
    specialize (IH g a Ha).
    destruct (agent_calls llm agent g rest) as [rs final]. simpl in *.
    constructor; [reflexivity | exact IH].
Qed.

Lemma get_or_create_agent_keeps_llm :
  forall (g : agent_globals llm agent) (env : agent_env llm agent) (l : llm),
    _llm g = Some l ->
    _llm (snd (fst (get_or_create_agent llm agent g env))) = Some l /\
    ~ In MakeLlm (snd (get_or_create_agent llm agent g env)).
Proof.
  intros g env l Hl. unfold get_or_create_agent.
  destruct (_agent g); simpl; [split; [exact Hl | tauto]|].
  rewrite Hl. destruct (make_agent env l); simpl;
    (split; [first [exact Hl | reflexivity] | intuition discriminate]).
Qed.

Lemma agent_calls_keep_llm :
  forall (envs : list (agent_env llm agent)) (g : agent_globals llm agent)
         (l : llm),
    _llm g = Some l ->
    Forall (fun r => ~ In MakeLlm (snd r))
           (fst (agent_calls llm agent g envs)) /\
    llm_built llm agent g envs = 0.
Proof.
  induction envs as [|env rest IH]; intros g l Hl; simpl.
  - split; [constructor | reflexivity].
  - destruct (get_or_create_agent_keeps_llm g env l Hl) as [Hk Hn].
    destruct (get_or_create_agent llm agent g env) as [[r g'] ev].
    simpl in Hk, Hn. specialize (IH g' l Hk).
    destruct (agent_calls llm agent g' rest) as [rs final]. simpl in *.
    destruct IH as [IH1 IH2]. rewrite Hl, IH2.
    split; [constructor; [exact Hn | exact IH1] | reflexivity].
Qed.

Lemma get_or_create_agent_result :
  forall (g : agent_globals llm agent) (env : agent_env llm agent),
    (forall a, fst (fst (get_or_create_agent llm agent g env)) = Ok a ->
               _agent (snd (fst (get_or_create_agent llm agent g env)))
                 = Some a) /\
    (In MakeAgent (snd (get_or_create_agent llm agent g env)) ->
     exists l, _llm (snd (fst (get_or_create_agent llm agent g env)))
                 = Some l).
Proof.
  intros g env. unfold get_or_create_agent.
  destruct (_agent g) as [a0|] eqn:Ha; simpl.
  - split; [intros a H; congruence | tauto].
  - destruct (_llm g) as [l|] eqn:Hl.
    + destruct (make_agent env l); simpl;
        (split; [intros a' H; congruence | intros _; eauto]).
    + destruct (make_llm env) as [l|e]; simpl.
      * destruct (make_agent env l); simpl;
          (split; [intros a' H; congruence | intros _; eauto]).
      * split; [intros a' H; congruence | intuition discriminate].
Qed.

(** X17.  Whatever [ChatGroq] and [create_react_agent] do, over any
    sequence of calls of [get_or_create_agent]: once a call has returned
    an agent, every later call returns that same agent and constructs
    nothing; a call that got as far as building the agent, also one in
    which [create_react_agent] raised, leaves the language model in
    place, so that no later call constructs it again; and the language
    model is constructed with success at most once. *)
Theorem agent_and_llm_are_built_once :
  forall (g : agent_globals llm agent) (envs : list (agent_env llm agent)),
    (forall i j a ev r,
       i < j ->
       fst (agent_calls llm agent g envs) !! i = Some (Ok a, ev) ->
       fst (agent_calls llm agent g envs) !! j = Some r ->
       r = (Ok a, [])) /\
    (forall i j ri rj,
       i < j ->
       fst (agent_calls llm agent g envs) !! i = Some ri ->
       In MakeAgent (snd ri) ->
       fst (agent_calls llm agent g envs) !! j = Some rj ->
       ~ In MakeLlm (snd rj)) /\
    llm_built llm agent g envs <= 1.
Proof.
  intros g envs. revert g.
  induction envs as [|env rest IH]; intros g; simpl.
  - repeat split; try lia; intros; destruct i; discriminate.
  - destruct (get_or_create_agent_result g env) as [Hres Hllm].
    pose proof (get_or_create_agent_keeps_llm g env) as Hkeep.
    destruct (get_or_create_agent llm agent g env) as [[r0 g'] ev0].
    simpl in Hres, Hllm, Hkeep.
    pose proof (agent_calls_cached rest g') as Hcached.
    pose proof (agent_calls_keep_llm rest g') as Hkl.
    specialize (IH g').
    destruct (agent_calls llm agent g' rest) as [rs final].
    simpl in *. destruct IH as (IH1 & IH2 & IH3). split; [|split].
    + intros i j a ev r Hij Hi Hj.
      destruct j as [|j]; [lia|]. simpl in Hj.
      destruct i as [|i]; simpl in Hi.
      * injection Hi as Hr0 Hev. subst r0.
        pose proof (Hcached a (Hres a eq_refl)) as Hall.
        rewrite Forall_lookup in Hall. exact (Hall j r Hj).
      * apply (IH1 i j a ev r); [lia | exact Hi | exact Hj].
    + intros i j ri rj Hij Hi Hin Hj.
      destruct j as [|j]; [lia|]. simpl in Hj.
      destruct i as [|i]; simpl in Hi.
      * injection Hi as Hri. subst ri. simpl in Hin.
        destruct (Hllm Hin) as [l Hl].
        destruct (Hkl l Hl) as [Hall _].
        rewrite Forall_lookup in Hall. exact (Hall j rj Hj).
      * apply (IH2 i j ri rj); [lia | exact Hi | exact Hin | exact Hj].
    + destruct (_llm g) as [l|] eqn:Hg.
      * destruct (Hkeep l eq_refl) as [Hl' _].
        destruct (Hkl l Hl') as [_ H0]. rewrite H0. lia.
      * destruct (_llm g') as [l'|] eqn:Hg'.
        -- destruct (Hkl l' eq_refl) as [_ H0]. rewrite H0. lia.
        -- lia.
Qed.

End AgentCacheFacts.

Lemma agent_and_llm_are_built_once_witness :
  1 < 2 /\
  fst (agent_calls nat nat {| _agent := None; _llm := None |}
         [ {| make_llm := Ok 7;
              make_agent := fun _ => Raise (lit "tool schema error") |};
           {| make_llm := Ok 8; make_agent := fun l => Ok (l + 1) |};
           {| make_llm := Ok 9; make_agent := fun l => Ok (l + 2) |} ]) !! 1
    = Some (Ok 8, [MakeAgent]) /\
  exists r,
    fst (agent_calls nat nat {| _agent := None; _llm := None |}
           [ {| make_llm := Ok 7;
                make_agent := fun _ => Raise (lit "tool schema error") |};
             {| make_llm := Ok 8; make_agent := fun l => Ok (l + 1) |};
             {| make_llm := Ok 9; make_agent := fun l => Ok (l + 2) |} ]) !! 2
      = Some r /\
    r = (Ok 8, []).
Proof.
  split; [lia|]. split; [reflexivity|].
  eexists. split; [reflexivity|].
  refine (proj1 (agent_and_llm_are_built_once nat nat
                   {| _agent := None; _llm := None |}
                   [ {| make_llm := Ok 7;
                        make_agent :=
                          fun _ => Raise (lit "tool schema error") |};
                     {| make_llm := Ok 8;
                        make_agent := fun l => Ok (l + 1) |};
                     {| make_llm := Ok 9;
                        make_agent := fun l => Ok (l + 2) |} ])
                1 2 8 _ _ _ _ _); [lia | reflexivity | reflexivity].
Defined.
(** ** Quiz card *)

Import Quiz.

Section QuizFacts.
Variable toUpperCase toLowerCase : text -> text.
Variable questions : list QuizQuestion.

Lemma quiz_step_keeps_bounds :
  forall (st : quiz_state) (c : click),
    questions <> [] ->
    currentIndex st < total questions ->
    score st <= currentIndex st + (if answered st then 1 else 0) ->
    (selected st = None <-> answered st = false) ->
    currentIndex (quiz_step toUpperCase toLowerCase questions st c)
      < total questions /\
    score (quiz_step toUpperCase toLowerCase questions st c)
      <= currentIndex (quiz_step toUpperCase toLowerCase questions st c)
         + (if answered (quiz_step toUpperCase toLowerCase questions st c)
            then 1 else 0) /\
    (selected (quiz_step toUpperCase toLowerCase questions st c) = None <->
     answered (quiz_step toUpperCase toLowerCase questions st c) = false).
Proof.
  intros st c Hq Hi Hs Hsel.
  assert (Htot : 0 < total questions).
  { unfold total. destruct questions; [congruence | simpl; lia]. }
  assert (Hs' : score st <= currentIndex st + 1)
    by (destruct (answered st); lia).
  destruct c as [opt| |]; simpl.
  - unfold handleSelect. destruct (answered st) eqn:Ha.
    + rewrite Ha. auto.
    + destruct (nth_error questions (currentIndex st)) as [current|];
        simpl.
      * destruct (is_correct _ _ _ _);
          (split; [exact Hi | split; [lia | split; discriminate]]).
      * split; [exact Hi | split; [lia | split; discriminate]].
  - unfold handleNext.
    destruct (Nat.ltb_spec (currentIndex st) (total questions - 1)); simpl.
    + split; [lia | split; [lia | tauto]].
    + auto.
  - split; [exact Htot | split; [lia | tauto]].
Qed.

(** X18.  For a quiz with at least one question (the component shows
    nothing else for an empty one), after any sequence of clicks on the
    options, on the button below the question and on the restart button,
    in any order: the index of the current question is in range, so that
    the question shown exists; the score is at most the number of
    questions answered so far, hence at most the number of questions;
    and an option is recorded as selected exactly while the current
    question counts as answered. *)
Theorem quiz_score_is_bounded_by_progress :
  forall cs : list click,
    questions <> [] ->
    currentIndex (quiz_run toUpperCase toLowerCase questions initial_quiz cs)
      < total questions /\
    nth_error questions
      (currentIndex
         (quiz_run toUpperCase toLowerCase questions initial_quiz cs))
      <> None /\
    score (quiz_run toUpperCase toLowerCase questions initial_quiz cs)
      <= currentIndex
           (quiz_run toUpperCase toLowerCase questions initial_quiz cs)
         + (if answered
                 (quiz_run toUpperCase toLowerCase questions initial_quiz cs)
            then 1 else 0) /\
    score (quiz_run toUpperCase toLowerCase questions initial_quiz cs)
      <= total questions /\
    (selected (quiz_run toUpperCase toLowerCase questions initial_quiz cs)
       = None <->
     answered (quiz_run toUpperCase toLowerCase questions initial_quiz cs)
       = false).
Proof.
  intros cs Hq.
  assert (Hinv : forall cs st,
             currentIndex st < total questions ->
             score st <= currentIndex st + (if answered st then 1 else 0) ->
             (selected st = None <-> answered st = false) ->
             currentIndex (quiz_run toUpperCase toLowerCase questions st cs)
               < total questions /\
             score (quiz_run toUpperCase toLowerCase questions st cs)
               <= currentIndex
                    (quiz_run toUpperCase toLowerCase questions st cs)
                  + (if answered
                          (quiz_run toUpperCase toLowerCase questions st cs)
                     then 1 else 0) /\
             (selected (quiz_run toUpperCase toLowerCase questions st cs)
                = None <->
              answered (quiz_run toUpperCase toLowerCase questions st cs)
                = false)).
  { clear cs. induction cs as [|c cs IH]; intros st Hi Hs Hsel.
    - simpl. auto.
    - simpl.
      destruct (quiz_step_keeps_bounds st c Hq Hi Hs Hsel) as (H1 & H2 & H3).
      exact (IH _ H1 H2 H3). }
  assert (Htot : 0 < total questions).
  { unfold total. destruct questions; [congruence | simpl; lia]. }
  destruct (Hinv cs initial_quiz) as (H1 & H2 & H3);
    [exact Htot | simpl; lia | simpl; tauto |].
  split; [exact H1|]. split; [apply nth_error_Some; exact H1|].
  split; [exact H2|]. split; [|exact H3].
  destruct (answered _); lia.
Qed.

Lemma skipn_cons_inv :
  forall (A : Type) (k : nat) (l : list A) (q : A) (r : list A),
    skipn k l = q :: r ->
    nth_error l k = Some q /\ skipn (S k) l = r /\
    length l = k + 1 + length r.
Proof.
  intros A. induction k as [|k IH]; intros l q r H.
  - change (l = q :: r) in H. subst l. simpl. auto.
  - destruct l as [|x l]; [discriminate|]. change (skipn k l = q :: r) in H.
    destruct (IH l q r H) as (H1 & H2 & H3).
    split; [exact H1|]. split; [exact H2|]. simpl. lia.
Qed.

Lemma answer_all_from :
  forall (answers : list text) (rest : list QuizQuestion) (k s : nat),
    skipn k questions = rest ->
    rest <> [] ->
    length answers = length rest ->
    quiz_run toUpperCase toLowerCase questions
      {| currentIndex := k; selected := None; answered := false;
         score := s; complete := false |}
      (answer_all answers)
    = {| currentIndex := total questions - 1;
         selected := Some (List.last answers []);
         answered := true;
         score := s + count_correct toUpperCase toLowerCase rest answers;
         complete := true |}.
Proof.
  induction answers as [|opt answers IH]; intros rest k s Hk Hne Hlen.
  - destruct rest; [congruence | discriminate].
  - destruct rest as [|q rest]; [congruence|].
    destruct (skipn_cons_inv _ k questions q rest Hk) as (Hnth & Hskip & Hl).
    cbn [answer_all flat_map app quiz_run fold_left quiz_step].
    unfold handleSelect at 1. cbn [answered currentIndex]. rewrite Hnth.
    unfold handleNext at 1. cbn [currentIndex selected answered score complete
                                 correct_answer].
    unfold total. rewrite Hl.
    destruct rest as [|q' rest'].
    + destruct answers; [|discriminate].
      replace (k <? k + 1 + length (@nil QuizQuestion) - 1) with false
        by (symmetry; apply Nat.ltb_ge; simpl; lia).
      cbn [flat_map fold_left count_correct List.last length].
      f_equal; [simpl; lia|].
      destruct (is_correct _ _ _ _); lia.
    + replace (k <? k + 1 + length (q' :: rest') - 1) with true
        by (symmetry; apply Nat.ltb_lt; simpl; lia).
      fold (answer_all answers).
      pose proof (IH (q' :: rest') (k + 1)
                     (if is_correct toUpperCase toLowerCase opt
                           (correct_answer q)
                      then s + 1 else s)) as IH'.
      unfold quiz_run in IH'. rewrite IH'.
      * unfold total. rewrite Hl. f_equal.
        -- destruct answers; [discriminate | reflexivity].
        -- cbn [count_correct].
           destruct (is_correct _ _ _ _); lia.
      * replace (k + 1) with (S k) by lia. exact Hskip.
      * discriminate.
      * simpl in Hlen. simpl. lia.
Qed.

(** X19.  A user who answers every question of a non-empty quiz in turn
    and presses the button below each one ends on the result screen, at
    the last question, and the score shown is the number of answers that
    start with the same letter as the correct answer, or equal it, both
    without regard to case. *)
Theorem quiz_run_counts_correct_answers :
  forall answers : list text,
    questions <> [] ->
    length answers = length questions ->
    quiz_run toUpperCase toLowerCase questions initial_quiz
      (answer_all answers)
    = {| currentIndex := total questions - 1;
         selected := Some (List.last answers []);
         answered := true;
         score := count_correct toUpperCase toLowerCase questions answers;
         complete := true |}.
Proof.
  intros answers Hq Hlen.
  exact (answer_all_from answers questions 0 0 eq_refl Hq Hlen).
Qed.

End QuizFacts.
Lemma quiz_score_is_bounded_by_progress_witness :
  score (quiz_run (map js_canonicalize) py_lower
           [ {| question := lit "2 + 2 = ?";
                options := [lit "A. 3"; lit "B. 4"];
                correct_answer := lit "B";
                explanation := lit "" |} ]
           initial_quiz
           [Select (lit "b. 4"); Select (lit "B. 4"); Next; Restart;
            Select (lit "A. 3"); Next; Next])
  <= total [ {| question := lit "2 + 2 = ?";
                options := [lit "A. 3"; lit "B. 4"];
                correct_answer := lit "B";
                explanation := lit "" |} ].
Proof.
  refine (proj1 (proj2 (proj2 (proj2
    (quiz_score_is_bounded_by_progress _ _ _ _ _))))).
  discriminate.
Defined.

Lemma quiz_run_counts_correct_answers_witness :
  quiz_run (map js_canonicalize) py_lower
    [ {| question := lit "2 + 2 = ?";
         options := [lit "A. 3"; lit "B. 4"];
         correct_answer := lit "B";
         explanation := lit "" |};
      {| question := lit "3 * 3 = ?";
         options := [lit "A. 9"; lit "B. 6"];
         correct_answer := lit "A. 9";
         explanation := lit "" |} ]
    initial_quiz
    (answer_all [lit "b. 4"; lit "B. 6"])
  = {| currentIndex := 1;
       selected := Some (lit "B. 6");
       answered := true;
       score := 1;
       complete := true |}.
Proof.
  rewrite quiz_run_counts_correct_answers;
    [vm_compute; reflexivity | discriminate | reflexivity].
Defined.

(** ** Document upload *)

Import Upload.

Lemma split_dot_shape :
  forall s : text,
    (~ In 46%N s /\ split_dot s = [s]) \/
    (exists p, s = p ++ 46%N :: pop (split_dot s) /\
               ~ In 46%N (pop (split_dot s))).
Proof.
  assert (Hgen : forall s : text,
    (~ In 46%N s /\ split_dot s = [s]) \/
    (exists p, s = p ++ 46%N :: pop (split_dot s) /\
               ~ In 46%N (pop (split_dot s)) /\
               exists x y l, split_dot s = x :: y :: l)).
  { induction s as [|c r IH].
    - left. split; [intros []|reflexivity].
    - cbn [split_dot]. destruct (N.eqb_spec c 46) as [Hc|Hc].
      + subst c. right. destruct IH as [[Hno Hsp]|(p & Hr & Hno & x & y & l & Hsp)].
        * exists []. rewrite Hsp. unfold pop. cbn [List.last app].
          split; [reflexivity|]. split; [exact Hno|]. eauto.
        * exists (46%N :: p). rewrite Hsp in *. unfold pop in *.
          cbn [List.last] in *.
          split; [rewrite Hr at 1; reflexivity|]. split; [exact Hno|]. eauto.
      + destruct IH as [[Hno Hsp]|(p & Hr & Hno & x & y & l & Hsp)].
        * left. rewrite Hsp. split; [|reflexivity].
          intros [H|H]; [congruence | exact (Hno H)].
        * right. rewrite Hsp in *. exists (c :: p). unfold pop in *.
          cbn [List.last] in *.
          split; [rewrite Hr at 1; reflexivity|]. split; [exact Hno|]. eauto. }
  intros s. destruct (Hgen s) as [H|(p & H1 & H2 & _)]; [left; exact H|].
  right. exists p. split; assumption.
Qed.

Lemma first_occurrence_unique :
  forall (x : N) (a b l l' : text),
    a ++ x :: l = b ++ x :: l' -> ~ In x a -> ~ In x b -> a = b.
Proof.
  intros x. induction a as [|h a IH]; intros b l l' H Ha Hb.
  - destruct b as [|h' b]; [reflexivity|]. simpl in H.
    injection H as Hh _. subst h'. exfalso. apply Hb. left. reflexivity.
  - destruct b as [|h' b]; simpl in H.
    + injection H as Hh _. subst h. exfalso. apply Ha. left. reflexivity.
    + injection H as Hh Ht. subst h'. f_equal.
      apply (IH b l l' Ht).
      * intros Hin. apply Ha. right. exact Hin.
      * intros Hin. apply Hb. right. exact Hin.
Qed.

Lemma last_segment_unique :
  forall (p p' a b : text),
    p ++ 46%N :: a = p' ++ 46%N :: b ->
    ~ In 46%N a -> ~ In 46%N b -> a = b.
Proof.
  intros p p' a b H Ha Hb.
  apply (f_equal (@rev N)) in H.
  rewrite !rev_app_distr in H. simpl in H. rewrite <- !app_assoc in H.
  simpl in H.
  apply first_occurrence_unique in H.
  - rewrite <- (rev_involutive a), <- (rev_involutive b). f_equal. exact H.
  - rewrite <- in_rev. exact Ha.
  - rewrite <- in_rev. exact Hb.
Qed.

Lemma valid_file_by_segment :
  forall name : text,
    valid_file name = true <->
    In (py_lower (pop (split_dot name)))
       [lit "pdf"; lit "txt"; lit "docx"; lit "doc"].
Proof.
  intros name. unfold valid_file, fileExt.
  replace validTypes
    with (map (fun e : text => lit "." ++ e)
              [lit "pdf"; lit "txt"; lit "docx"; lit "doc"])
    by (vm_compute; reflexivity).
  replace (lit ".") with [46%N] by (vm_compute; reflexivity).
  rewrite existsb_exists. split.
  - intros (t & Hin & Heq). apply bool_decide_eq_true in Heq. subst t.
    apply in_map_iff in Hin. destruct Hin as (e & He & Hin).
    injection He as He. subst e. exact Hin.
  - intros Hin. exists ([46%N] ++ py_lower (pop (split_dot name))).
    split; [|apply bool_decide_eq_true; reflexivity].
    apply in_map_iff. eexists. split; [reflexivity | exact Hin].
Qed.

(** X20.  The type check of the upload looks at what follows the last
    dot of the file name and nothing else: a name is accepted exactly
    when that last part, lower-cased, is pdf, txt, docx or doc.  A name
    without any dot is its own last part, so a file called PDF is
    accepted, and a name that ends in a dot never is. *)
Theorem upload_accepts_by_last_segment :
  forall name : text,
    (valid_file name = true <->
     exists prefix seg : text,
       name = prefix ++ seg /\
       ~ In 46%N seg /\
       (prefix = [] \/ exists p, prefix = p ++ [46%N]) /\
       In (py_lower seg) [lit "pdf"; lit "txt"; lit "docx"; lit "doc"]) /\
    valid_file (lit "PDF") = true /\
    valid_file (name ++ lit ".") = false.
Proof.
  intros name. split; [|split; [vm_compute; reflexivity|]].
  2:{ destruct (valid_file (name ++ lit ".")) eqn:Hv; [|reflexivity].
      exfalso. apply valid_file_by_segment in Hv.
      replace (lit ".") with [46%N] in Hv by (vm_compute; reflexivity).
      assert (Hpop : pop (split_dot (name ++ [46%N])) = []).
      { destruct (split_dot_shape (name ++ [46%N]))
          as [[Hno _]|(p' & Hname' & Hno')].
        - exfalso. apply Hno. apply in_or_app. right. left. reflexivity.
        - symmetry.
          exact (last_segment_unique name p' [] _ Hname' (fun H => H) Hno'). }
      rewrite Hpop in Hv. vm_compute in Hv.
      repeat (destruct Hv as [Hv|Hv]; [discriminate Hv|]). exact Hv. }
  rewrite valid_file_by_segment. split.
  - intros Hin.
    destruct (split_dot_shape name) as [[Hno Hsp]|(p & Hname & Hno)].
    + exists [], name. rewrite Hsp in Hin. unfold pop in Hin.
      cbn [List.last] in Hin. auto.
    + exists (p ++ [46%N]), (pop (split_dot name)).
      split; [rewrite <- app_assoc; exact Hname|].
      split; [exact Hno|]. split; [right; eauto | exact Hin].
  - intros (prefix & seg & Hname & Hno & Hshape & Hin).
    replace (pop (split_dot name)) with seg; [exact Hin|].
    destruct (split_dot_shape name) as [[Hno' Hsp]|(p' & Hname' & Hno')].
    + rewrite Hsp. unfold pop. cbn [List.last].
      destruct Hshape as [Hp|(p & Hp)]; subst prefix.
      * symmetry. exact Hname.
      * exfalso. apply Hno'. rewrite Hname.
        apply in_or_app. left. apply in_or_app. right. left. reflexivity.
    + destruct Hshape as [Hp|(p & Hp)]; subst prefix.
      * exfalso. apply Hno. simpl in Hname. rewrite <- Hname, Hname'.
        apply in_or_app. right. left. reflexivity.
      * rewrite Hname' in Hname at 1. rewrite <- app_assoc in Hname.
        simpl in Hname. symmetry.
        exact (last_segment_unique _ _ _ _ Hname Hno' Hno).
Qed.

Lemma upload_accepts_by_last_segment_witness :
  valid_file (lit "Report.final.PDF") = true.
Proof.
  apply (proj2 (proj1 (upload_accepts_by_last_segment
                         (lit "Report.final.PDF")))).
  exists (lit "Report.final."), (lit "PDF").
  split; [vm_compute; reflexivity|].
  split; [vm_compute; intros [H|[H|[H|[]]]]; discriminate H|].
  split; [right; exists (lit "Report.final"); vm_compute; reflexivity|].
  vm_compute. left. reflexivity.
Defined.

Ltac in_closed_list :=
  unfold not; intros;
  repeat match goal with
         | H : In _ (_ :: _) |- _ =>
             destruct H as [H|H]; [try discriminate H|]
         | H : In _ [] |- _ => destruct H
         end.

Section UploadFacts.
Variable sessionId : option text.
Variable has_onSessionCreated has_onDocumentAttached : bool.
Variable input_mounted : bool.
Variable now : text.

Lemma create_session_effects :
  forall (name : text) (created : create_response),
    List.filter is_append
      (fst (create_session sessionId has_onSessionCreated name created)) = []
    /\
    List.filter is_uploading_flag
      (fst (create_session sessionId has_onSessionCreated name created)) = []
    /\
    length (List.filter is_request
      (fst (create_session sessionId has_onSessionCreated name created))) <= 1
    /\
    ~ In ClearFileInput
        (fst (create_session sessionId has_onSessionCreated name created))
    /\
    forall doc,
      ~ In (OnDocumentAttached doc)
        (fst (create_session sessionId has_onSessionCreated name created)).
Proof.
  intros name created. unfold create_session.
  destruct (has_session sessionId);
    [cbn [fst List.filter length]; repeat split; try lia; in_closed_list|].
  destruct created as [|[|] [new_id|]];
    try destruct (has_onSessionCreated && truthy new_id);
    cbn [fst List.filter is_append is_uploading_flag is_request length];
    repeat split; try lia; in_closed_list.
Qed.

Lemma upload_document_effects :
  forall (name : text) (uploaded : upload_response),
    exists m : ChatMessage,
      List.filter is_append
        (fst (upload_document has_onDocumentAttached now name uploaded)
         ++ (if snd (upload_document has_onDocumentAttached now name uploaded)
             then [AppendChatMessage (failure_message now)] else []))
        = [AppendChatMessage m] /\
      (m = failure_message now \/
       exists doc, uploaded = UploadResponse true (Some doc) /\
                   m = success_message now doc) /\
      List.filter is_uploading_flag
        (fst (upload_document has_onDocumentAttached now name uploaded)
         ++ (if snd (upload_document has_onDocumentAttached now name uploaded)
             then [AppendChatMessage (failure_message now)] else []))
        = [] /\
      ~ In ClearFileInput
        (fst (upload_document has_onDocumentAttached now name uploaded)
         ++ (if snd (upload_document has_onDocumentAttached now name uploaded)
             then [AppendChatMessage (failure_message now)] else [])) /\
      length (List.filter is_request
        (fst (upload_document has_onDocumentAttached now name uploaded)
         ++ (if snd (upload_document has_onDocumentAttached now name uploaded)
             then [AppendChatMessage (failure_message now)] else []))) = 1 /\
      (forall doc,
         In (OnDocumentAttached doc)
           (fst (upload_document has_onDocumentAttached now name uploaded)
            ++ (if snd (upload_document has_onDocumentAttached now name
                          uploaded)
                then [AppendChatMessage (failure_message now)] else [])) ->
         m = success_message now doc).
Proof.
  intros name uploaded. unfold upload_document.
  destruct uploaded as [|[|] [d|]];
    try destruct has_onDocumentAttached;
    cbn [fst snd app List.filter is_append is_uploading_flag is_request length];
    eexists; (split; [reflexivity|]);
    (split; [first [left; reflexivity | right; eexists; split; reflexivity]|]);
    (split; [reflexivity|]);
    (split; [intros H; repeat (destruct H as [H|H]; [discriminate H|]);
             exact H|]);
    (split; [reflexivity|]);
    intros doc H;
    repeat (destruct H as [H|H];
            [first [discriminate H | injection H as H; subst; reflexivity]|]);
    destruct H.
Qed.

(** X21.  Whatever the two requests do, and whichever callbacks the
    parent passes: for a file that passes the type check, the upload
    indicator is switched on first and switched off again after
    everything else, also when a request fails; the file input is
    cleared then, if it is mounted; exactly one message is added to the
    chat, which is the failure message or, only when the upload answered
    with a document, the success message for it; at most two requests
    are sent;
    and the parent is told of a document only when the success message
    for it is shown.  A file that fails the type check gets the one
    message about supported types and nothing else: no request, and the
    indicator and the file input are not touched. *)
Theorem upload_reports_once_and_resets :
  forall (name : text) (created : create_response)
         (uploaded : upload_response),
    (valid_file name = false ->
     handleFileUpload sessionId has_onSessionCreated has_onDocumentAttached
       input_mounted now (Some name) created uploaded
     = [AppendChatMessage (unsupported_message now)]) /\
    (valid_file name = true ->
     exists (body : list upload_effect) (m : ChatMessage),
       handleFileUpload sessionId has_onSessionCreated has_onDocumentAttached
         input_mounted now (Some name) created uploaded
       = SetIsUploading true
           :: body
           ++ SetIsUploading false
           :: (if input_mounted then [ClearFileInput] else []) /\
       List.filter is_append body = [AppendChatMessage m] /\
       (m = failure_message now \/
        exists doc, uploaded = UploadResponse true (Some doc) /\
                    m = success_message now doc) /\
       List.filter is_uploading_flag body = [] /\
       ~ In ClearFileInput body /\
       length (List.filter is_request body) <= 2 /\
       (forall doc, In (OnDocumentAttached doc) body ->
                    m = success_message now doc)).
Proof.
  intros name created uploaded. split.
  - intros Hv. unfold handleFileUpload. rewrite Hv. reflexivity.
  - intros Hv. unfold handleFileUpload. rewrite Hv. cbn [negb].
    unfold try_block, finally_block.
    pose proof (create_session_effects name created)
      as (Ha & Hf & Hr & Hc & Hd).
    destruct (create_session sessionId has_onSessionCreated name created)
      as [e1 [|]].
    + cbn [fst] in Ha, Hf, Hr, Hc, Hd.
      exists (e1 ++ [AppendChatMessage (failure_message now)]),
             (failure_message now).
      split; [rewrite <- app_assoc; reflexivity|].
      rewrite !List.filter_app, Ha, Hf.
      cbn [List.filter is_append is_uploading_flag is_request app].
      split; [reflexivity|]. split; [left; reflexivity|].
      split; [reflexivity|].
      split; [intros H; apply in_app_or in H; destruct H as [H|[H|[]]];
              [exact (Hc H) | discriminate H]|].
      split; [rewrite length_app; simpl; lia|].
      intros doc H. apply in_app_or in H. destruct H as [H|[H|[]]];
        [destruct (Hd doc H) | discriminate H].
    + cbn [fst] in Ha, Hf, Hr, Hc, Hd.
      destruct (upload_document_effects name uploaded)
        as (m & Hm & Hwhich & Hf2 & Hc2 & Hr2 & Hd2).
      destruct (upload_document has_onDocumentAttached now name uploaded)
        as [e2 threw2].
      cbn [fst snd] in Hm, Hf2, Hc2, Hr2, Hd2.
      exists (e1 ++ e2 ++ (if threw2
                           then [AppendChatMessage (failure_message now)]
                           else [])), m.
      split; [rewrite <- !app_assoc; reflexivity|].
      rewrite !(List.filter_app _ e1), Ha, Hf, Hm, Hf2.
      split; [reflexivity|]. split; [exact Hwhich|].
      split; [reflexivity|].
      split; [intros H; apply in_app_or in H; destruct H as [H|H];
              [exact (Hc H) | exact (Hc2 H)]|].
      split; [rewrite length_app, Hr2; lia|].
      intros doc H. apply in_app_or in H. destruct H as [H|H];
        [destruct (Hd doc H) | exact (Hd2 doc H)].
Qed.

End UploadFacts.

Lemma upload_reports_once_and_resets_witness :
  exists (body : list upload_effect) (m : ChatMessage),
    handleFileUpload None true true true (lit "1765180000000")
      (Some (lit "notes.pdf")) (CreateResponse true (Some (lit "s-1")))
      (UploadResponse false None)
    = SetIsUploading true :: body ++ [SetIsUploading false; ClearFileInput] /\
    List.filter is_append body = [AppendChatMessage m] /\
    m = failure_message (lit "1765180000000").
Proof.
  destruct (proj2 (upload_reports_once_and_resets None true true true
                     (lit "1765180000000") (lit "notes.pdf")
                     (CreateResponse true (Some (lit "s-1")))
                     (UploadResponse false None))
              ltac:(vm_compute; reflexivity))
    as (body & m & H1 & H2 & [H3|(doc & H3 & _)] & _).
  - exists body, m. split; [exact H1|]. split; [exact H2 | exact H3].
  - discriminate H3.
Defined.

(** ** Email list of an answer *)

Import EmailList.

Local Open Scope N_scope.

Lemma sep_units : lit " - " = [32; 45; 32].
Proof. vm_compute. reflexivity. Qed.

Lemma span_spec :
  forall (f : N -> bool) (s a b : text),
    span f s = (a, b) ->
    s = a ++ b /\ forallb f a = true /\
    match b with [] => True | c :: _ => f c = false end.
Proof.
  intros f. induction s as [|c r IH]; intros a b H; simpl in H.
  - injection H as Ha Hb. subst a b. simpl. auto.
  - destruct (f c) eqn:Hc.
    + destruct (span f r) as [a' b'] eqn:Hr.
      injection H as Ha Hb. subst a b.
      destruct (IH a' b' eq_refl) as (H1 & H2 & H3).
      split; [simpl; f_equal; exact H1|].
      split; [simpl; rewrite Hc; exact H2 | exact H3].
    + injection H as Ha Hb. subst a b. simpl. auto.
Qed.

Lemma span_app :
  forall (f : N -> bool) (a : text) (c : N) (b : text),
    forallb f a = true -> f c = false ->
    span f (a ++ c :: b) = (a, c :: b).
Proof.
  intros f. induction a as [|x a IH]; intros c b Ha Hc; simpl.
  - rewrite Hc. reflexivity.
  - simpl in Ha. apply andb_true_iff in Ha. destruct Ha as [Hx Ha].
    rewrite Hx, (IH c b Ha Hc). reflexivity.
Qed.

Lemma match_line_groups :
  forall (line digits rest : text),
    match_line line = Some (digits, rest) ->
    digits <> [] /\ forallb is_digit digits = true /\
    rest <> [] /\
    forallb (fun u => negb (is_line_terminator u)) rest = true /\
    exists pre, line = pre ++ rest.
Proof.
  intros line digits rest H. unfold match_line in H.
  destruct line as [|c r]; [discriminate|].
  destruct (c =? 91); [|discriminate].
  destruct (span is_digit r) as [d r1] eqn:Hd.
  destruct (span_spec _ _ _ _ Hd) as (Hr & Hdig & _).
  destruct d as [|d0 d]; [discriminate|].
  destruct r1 as [|c1 tail]; [discriminate|].
  destruct (c1 =? 93); [|discriminate].
  destruct (span js_is_space tail) as [w rest'] eqn:Hw.
  destruct (span_spec _ _ _ _ Hw) as (Ht & _ & _).
  destruct rest' as [|x rest'].
  - destruct (rev w) as [|u w'] eqn:Hrev; [discriminate|].
    destruct (is_line_terminator u) eqn:Hu; [discriminate|].
    injection H as Hdigits Hrest. subst digits rest.
    split; [discriminate|]. split; [exact Hdig|]. split; [discriminate|].
    split; [simpl; rewrite Hu; reflexivity|].
    exists (c :: (d0 :: d) ++ c1 :: rev w').
    rewrite Hr, Ht, app_nil_r.
    rewrite <- (rev_involutive w), Hrev. simpl.
    rewrite <- !app_assoc. reflexivity.
  - destruct (forallb (fun u => negb (is_line_terminator u)) (x :: rest'))
      eqn:Hall; [|discriminate].
    injection H as Hdigits Hrest. subst digits rest.
    split; [discriminate|]. split; [exact Hdig|]. split; [discriminate|].
    split; [exact Hall|].
    exists (c :: (d0 :: d) ++ c1 :: w).
    rewrite Hr, Ht. simpl. rewrite <- !app_assoc. reflexivity.
Qed.

Lemma js_or_not_blank :
  forall a b : text, b <> [] -> js_or a b <> [].
Proof.
  intros a b Hb. unfold js_or. destruct a; simpl; [exact Hb | discriminate].
Qed.

Lemma parse_line_fields :
  forall (line : text) (e : EmailItem),
    parse_line line = Some e ->
    index_digits e <> [] /\ forallb is_digit (index_digits e) = true /\
    sender e <> [] /\ subject e <> [] /\ date e <> [] /\
    exists (pre : text) (u : N),
      line = pre ++ [u] /\ is_line_terminator u = false.
Proof.
  intros line e H. unfold parse_line in H.
  destruct (match_line line) as [[digits rest]|] eqn:Hm; [|discriminate].
  destruct (match_line_groups _ _ _ Hm) as (H1 & H2 & H3 & H4 & pre & H5).
  destruct (3 <=? length (split_sep (lit " - ") rest))%nat; [|discriminate].
  injection H as He. subst e. cbn [index_digits sender subject date].
  split; [exact H1|]. split; [exact H2|].
  split; [apply js_or_not_blank; vm_compute; discriminate|].
  split; [apply js_or_not_blank; vm_compute; discriminate|].
  split; [apply js_or_not_blank; vm_compute; discriminate|].
  destruct (exists_last H3) as (rest' & u & Hrest).
  exists (pre ++ rest'), u. split.
  - rewrite H5, Hrest, app_assoc. reflexivity.
  - rewrite Hrest, forallb_app in H4. apply andb_true_iff in H4.
    destruct H4 as [_ H4]. simpl in H4. rewrite andb_true_r in H4.
    apply negb_true_iff in H4. exact H4.
Qed.

(** X22.  Every item [parseEmailList] returns is complete: its index is
    a non-empty run of decimal digits and its sender, subject and date
    are not empty.  There is at most one item per line of the answer.  A
    line that ends in a carriage return gives no item, and neither does
    an empty line, so an answer whose lines are all terminated by CR LF
    gives none at all. *)
Theorem parsed_emails_are_complete :
  forall content : text,
    (forall e, In e (parseEmailList content) ->
       index_digits e <> [] /\ forallb is_digit (index_digits e) = true /\
       sender e <> [] /\ subject e <> [] /\ date e <> []) /\
    (length (parseEmailList content) <= length (split_lines content))%nat /\
    ((forall line, In line (split_lines content) ->
        line = [] \/ exists l, line = l ++ [13]) ->
     parseEmailList content = []).
Proof.
  intros content. unfold parseEmailList. split; [|split].
  - intros e He. apply in_flat_map in He. destruct He as (line & _ & He).
    destruct (parse_line line) as [e'|] eqn:Hp; [|destruct He].
    destruct He as [He|[]]. subst e'.
    destruct (parse_line_fields _ _ Hp) as (H1 & H2 & H3 & H4 & H5 & _).
    auto.
  - induction (split_lines content) as [|line lines IH]; simpl; [lia|].
    rewrite length_app. destruct (parse_line line); simpl; lia.
  - induction (split_lines content) as [|line lines IH]; intros Hcr;
      simpl; [reflexivity|].
    rewrite IH; [|intros l Hl; apply Hcr; right; exact Hl].
    destruct (parse_line line) as [e|] eqn:Hp; [|reflexivity].
    exfalso.
    destruct (parse_line_fields _ _ Hp) as (_ & _ & _ & _ & _ & pre & u & Hl & Hu).
    destruct (Hcr line (or_introl eq_refl)) as [Hl'|(l & Hl')];
      [rewrite Hl' in Hl; destruct pre; discriminate Hl|].
    rewrite Hl' in Hl. apply app_inj_tail in Hl. destruct Hl as [_ Hl].
    subst u. vm_compute in Hu. discriminate Hu.
Qed.

Lemma parsed_emails_are_complete_witness :
  parseEmailList (lit "[1] Ann - Hello - Dec 8" ++ [13; 10]
                    ++ lit "[2] Bob - Re: x - Dec 9" ++ [13; 10]) = [].
Proof.
  refine (proj2 (proj2 (parsed_emails_are_complete _)) _).
  intros line Hin. vm_compute in Hin.
  destruct Hin as [H|[H|[H|[]]]]; subst line.
  - right. exists (lit "[1] Ann - Hello - Dec 8"). vm_compute. reflexivity.
  - right. exists (lit "[2] Bob - Re: x - Dec 9"). vm_compute. reflexivity.
  - left. reflexivity.
Defined.

Local Close Scope N_scope.

Local Open Scope N_scope.

Lemma split_go_not_empty :
  forall (sep s : text) (k : nat), split_go sep k s <> [].
Proof.
  intros sep. induction s as [|c r IH]; intros k.
  - destruct k; discriminate.
  - destruct k as [|k]; simpl; [|apply IH].
    destruct (starts_with sep (c :: r)); [discriminate|].
    destruct (split_go sep 0 r); discriminate.
Qed.

Lemma starts_with_sep_inv :
  forall s : text,
    starts_with [32; 45; 32] s = true <-> exists r, s = 32 :: 45 :: 32 :: r.
Proof.
  intros s. split.
  - intros H. unfold starts_with in H.
    destruct s as [|a [|b [|c r]]]; cbn [starts_with_by] in H;
      rewrite ?andb_false_r in H; try discriminate H.
    unfold cp_eqb in H.
    apply andb_true_iff in H. destruct H as [Ha H].
    apply andb_true_iff in H. destruct H as [Hb H].
    apply andb_true_iff in H. destruct H as [Hc _].
    apply N.eqb_eq in Ha, Hb, Hc. subst a b c. eauto.
  - intros [r ->]. reflexivity.
Qed.

Lemma split_sep_step :
  forall (c : N) (r : text),
    starts_with [32; 45; 32] (c :: r) = false ->
    split_sep [32; 45; 32] (c :: r)
    = match split_sep [32; 45; 32] r with
      | p :: ps => (c :: p) :: ps
      | [] => [[c]]
      end.
Proof.
  intros c r H. unfold split_sep. cbn [split_go]. rewrite H. reflexivity.
Qed.

Lemma split_sep_at_sep :
  forall r : text,
    split_sep [32; 45; 32] (32 :: 45 :: 32 :: r)
    = [] :: split_sep [32; 45; 32] r.
Proof. intros r. reflexivity. Qed.

(** A text in which the separator does not occur is one part. *)
Lemma split_sep_absent :
  forall s : text,
    py_in [32; 45; 32] s = false -> split_sep [32; 45; 32] s = [s].
Proof.
  induction s as [|c r IH]; intros H; [reflexivity|].
  cbn [py_in] in H. apply orb_false_iff in H. destruct H as [Hs Hr].
  rewrite (split_sep_step c r Hs), (IH Hr). reflexivity.
Qed.

Lemma join_cons :
  forall (sep a b : text) (l : list text),
    join sep (a :: b :: l) = a ++ sep ++ join sep (b :: l).
Proof. reflexivity. Qed.

(** Joining the parts gives the text back. *)
Lemma join_split_sep :
  forall s : text, join [32; 45; 32] (split_sep [32; 45; 32] s) = s.
Proof.
  assert (H : forall (n : nat) (s : text),
             (length s <= n)%nat ->
             join [32; 45; 32] (split_sep [32; 45; 32] s) = s).
  { induction n as [|n IH]; intros s Hn.
    - destruct s; [reflexivity | simpl in Hn; lia].
    - destruct s as [|c r]; [reflexivity|].
      destruct (starts_with [32; 45; 32] (c :: r)) eqn:Hs.
      + apply starts_with_sep_inv in Hs. destruct Hs as [r' Hs].
        rewrite Hs, split_sep_at_sep.
        pose proof (IH r') as IHr.
        pose proof (split_go_not_empty [32; 45; 32] r' 0) as Hne.
        unfold split_sep in *.
        destruct (split_go [32; 45; 32] 0 r') as [|p ps]; [congruence|].
        rewrite join_cons, IHr; [reflexivity|].
        injection Hs as _ Hr. subst r. simpl in Hn. lia.
      + rewrite (split_sep_step c r Hs).
        pose proof (IH r) as IHr.
        pose proof (split_go_not_empty [32; 45; 32] r 0) as Hne.
        unfold split_sep in *.
        destruct (split_go [32; 45; 32] 0 r) as [|p ps]; [congruence|].
        assert (Hlen : (length r <= n)%nat) by (simpl in Hn; lia).
        specialize (IHr Hlen).
        destruct ps as [|p2 ps].
        -- simpl in *. f_equal. exact IHr.
        -- rewrite join_cons in *. simpl. f_equal. exact IHr. }
  intros s. exact (H (length s) s (le_n _)).
Qed.

(** Splitting goes through a separator that the text before it does not
    overlap. *)
Lemma split_sep_app :
  forall s t : text,
    (forall u, s <> u ++ [32; 45]) ->
    split_sep [32; 45; 32] (s ++ 32 :: 45 :: 32 :: t)
    = split_sep [32; 45; 32] s ++ split_sep [32; 45; 32] t.
Proof.
  assert (H : forall (n : nat) (s t : text),
             (length s <= n)%nat ->
             (forall u, s <> u ++ [32; 45]) ->
             split_sep [32; 45; 32] (s ++ 32 :: 45 :: 32 :: t)
             = split_sep [32; 45; 32] s ++ split_sep [32; 45; 32] t).
  { induction n as [|n IH]; intros s t Hn Hend.
    - destruct s; [reflexivity | simpl in Hn; lia].
    - destruct s as [|c r]; [reflexivity|].
      assert (Hr : forall u, r <> u ++ [32; 45]).
      { intros u Hu. apply (Hend (c :: u)). rewrite Hu. reflexivity. }
      destruct (starts_with [32; 45; 32] ((c :: r) ++ 32 :: 45 :: 32 :: t))
        eqn:Hs.
      + apply starts_with_sep_inv in Hs. destruct Hs as [q Hs].
        destruct r as [|c2 [|c3 r']].
        * simpl in Hs. discriminate Hs.
        * simpl in Hs. injection Hs as Hc Hc2 _. subst c c2.
          exfalso. apply (Hend []). reflexivity.
        * simpl in Hs. injection Hs as Hc Hc2 Hc3 _. subst c c2 c3.
          change ((32 :: 45 :: 32 :: r') ++ 32 :: 45 :: 32 :: t)
            with (32 :: 45 :: 32 :: (r' ++ 32 :: 45 :: 32 :: t)).
          rewrite !split_sep_at_sep.
          rewrite (IH r' t); [reflexivity | simpl in Hn; lia |].
          intros u Hu. apply (Hend (32 :: 45 :: 32 :: u)).
          rewrite Hu. reflexivity.
      + assert (Hs' : starts_with [32; 45; 32] (c :: r) = false).
        { destruct (starts_with [32; 45; 32] (c :: r)) eqn:Hs'';
            [|reflexivity].
          apply starts_with_sep_inv in Hs''. destruct Hs'' as [q Hq].
          rewrite Hq in Hs. simpl in Hs. discriminate Hs. }
        change ((c :: r) ++ 32 :: 45 :: 32 :: t)
          with (c :: (r ++ 32 :: 45 :: 32 :: t)) in *.
        rewrite (split_sep_step _ _ Hs), (split_sep_step _ _ Hs').
        rewrite (IH r t); [|simpl in Hn; lia | exact Hr].
        pose proof (split_go_not_empty [32; 45; 32] r 0) as Hne.
        unfold split_sep in *.
        destruct (split_go [32; 45; 32] 0 r); [congruence | reflexivity]. }
  intros s t. exact (H (length s) s t (le_n _)).
Qed.

Lemma js_trim_start_length :
  forall s : text, (length (js_trim_start s) <= length s)%nat.
Proof.
  induction s as [|c r IH]; simpl; [lia|].
  destruct (js_is_space c); simpl; lia.
Qed.

Lemma js_trim_length :
  forall s : text, (length (js_trim s) <= length (js_trim_start s))%nat.
Proof.
  intros s. unfold js_trim, js_trim_end.
  rewrite length_rev.
  etransitivity; [apply js_trim_start_length|].
  rewrite length_rev. lia.
Qed.

(** A text that [trim] leaves alone does not start with white space. *)
Lemma trimmed_head :
  forall (c : N) (r : text),
    js_trim (c :: r) = c :: r -> js_is_space c = false.
Proof.
  intros c r H. destruct (js_is_space c) eqn:Hc; [|reflexivity].
  exfalso. pose proof (js_trim_length (c :: r)) as Hl.
  rewrite H in Hl. cbn [js_trim_start] in Hl. rewrite Hc in Hl.
  pose proof (js_trim_start_length r). simpl in Hl. lia.
Qed.

Lemma split_lines_one :
  forall s : text,
    forallb (fun u => negb (u =? 10)) s = true -> split_lines s = [s].
Proof.
  induction s as [|c r IH]; intros H; [reflexivity|].
  simpl in H. apply andb_true_iff in H. destruct H as [Hc Hr].
  apply negb_true_iff in Hc. simpl. rewrite Hc, (IH Hr). reflexivity.
Qed.

Lemma forallb_weaken :
  forall (f g : N -> bool) (s : text),
    (forall c, f c = true -> g c = true) ->
    forallb f s = true -> forallb g s = true.
Proof.
  intros f g s Hfg. induction s as [|c r IH]; intros H; [reflexivity|].
  simpl in *. apply andb_true_iff in H. destruct H as [Hc Hr].
  rewrite (Hfg c Hc), (IH Hr). reflexivity.
Qed.

Lemma digit_not_newline :
  forall c : N, is_digit c = true -> negb (c =? 10) = true.
Proof.
  intros c H. unfold is_digit in H. apply andb_true_iff in H.
  destruct H as [H _]. apply N.leb_le in H.
  apply negb_true_iff, N.eqb_neq. lia.
Qed.

Lemma not_terminator_not_newline :
  forall c : N,
    negb (is_line_terminator c) = true -> negb (c =? 10) = true.
Proof.
  intros c H. unfold is_line_terminator in H.
  destruct (c =? 10); [discriminate H | reflexivity].
Qed.



Local Close Scope N_scope.
